(** * UpdateBuilder: the write batch behind WriteBatch and BulkWriter

    A shallow embedding of [dev/src/update-builder.ts].  The class keeps a
    list of deferred write producers, a set of document paths, a map of
    result slots and a batch state; [bulkCommit] and [commit_] serialise the
    producers into one RPC and hand the response back.

    JavaScript exceptions and rejected promises are the [Throw] outcome of a
    small state monad over the batch; the monad also records the outgoing
    RPCs and every invocation of a write producer, in program order. *)

From Stdlib Require Import ZArith List String Ascii Lia Permutation Sorted.
From stdpp Require Import base option list gmap sets strings sorting.
From stdpp Require Import pretty.

Local Open Scope Z_scope.

(** ** Wire types ([google.firestore.v1]) *)

(** A field path is its sequence of segments: ["a.b"] is [["a"; "b"]]. *)
Definition FieldPath := list string.

Record ITimestamp := mkITimestamp { seconds : Z; nanos : Z }.

Record Timestamp := mkTimestamp { _seconds : Z; _nanoseconds : Z }.

Record IPrecondition := mkIPrecondition {
  pc_exists : option bool;
  pc_updateTime : option ITimestamp
}.

Record IDocument := mkIDocument {
  doc_name : string;
  doc_fields : list (string * string)
}.

Record IWrite := mkIWrite {
  w_update : option IDocument;
  w_delete : option string;
  w_updateMask : option (list FieldPath);
  w_updateTransforms : option (list string);
  w_currentDocument : option IPrecondition
}.

Record IStatus := mkIStatus {
  st_code : option Z;
  st_message : option string
}.

Record IWriteResult := mkIWriteResult { updateTime : option ITimestamp }.

Record BatchWriteRequest := mkBatchWriteRequest {
  bw_database : string;
  bw_writes : list IWrite
}.

Record BatchWriteResponse := mkBatchWriteResponse {
  bw_writeResults : option (list IWriteResult);
  bw_status : list IStatus
}.

Record CommitRequest := mkCommitRequest {
  cm_database : string;
  cm_writes : list IWrite;
  cm_transaction : option (list Byte.byte)
}.

Record CommitResponse := mkCommitResponse {
  cm_writeResults : option (list IWriteResult);
  commitTime : option ITimestamp
}.

Record BeginTransactionResponse := mkBeginTransactionResponse {
  transaction : list Byte.byte
}.

(** gRPC status codes used below. *)
Definition Status_OK : Z := 0.
Definition Status_UNAVAILABLE : Z := 14.

(** ** Values of the module *)

Definition GCF_IDLE_TIMEOUT_MS : Z := 110 * 1000.

Definition MAX_BATCH_SIZE : Z := 500.

Record WriteResult := mkWriteResult { writeTime : Timestamp }.

Record GoogleError := mkGoogleError {
  ge_message : string;
  ge_code : option Z
}.

Record BatchWriteResult := mkBatchWriteResult {
  br_writeTime : option Timestamp;
  br_status : GoogleError
}.

Record WriteOp := mkWriteOp {
  write : IWrite;
  precondition : option IPrecondition
}.

Inductive BatchState := OPEN | READY_TO_SEND | SENT.

#[global] Instance BatchState_eq_dec : EqDecision BatchState.
Proof. solve_decision. Defined.

Definition BatchState_eqb (a b : BatchState) : bool :=
  match a, b with
  | OPEN, OPEN | READY_TO_SEND, READY_TO_SEND | SENT, SENT => true
  | _, _ => false
  end.

(** What a [throw] or a rejected promise carries. *)
Inductive Exn :=
| JsError (msg : string)
| AssertionError (msg : string)
| TypeError (msg : string)
| InvalidArgument (arg : string) (expected : string) (detail : string)
| FieldConflict (arg : string) (field : FieldPath)
| UpdateUsage (cause : Exn)
| Rejected (e : GoogleError).

(** ** Collaborators that are not part of this file *)

(** Modelled from the spec: [Timestamp.fromProto] (timestamp.ts) is not among
    the sources; the spec writes a timestamp as the pair (seconds, nanos) on
    the wire and in a write result alike. *)
Definition Timestamp_fromProto (t : ITimestamp) : Timestamp :=
  mkTimestamp (seconds t) (nanos t).

(** Modelled from the spec: the [Precondition] class (document.ts) is not
    among the sources.  The spec describes it as the builder from user input
    to the wire form, which is [exists] xor [lastUpdateTime]; a precondition
    with neither has no wire form, which is how [delete] without a
    precondition is sent without [currentDocument]. *)
Record Precondition := mkPrecondition {
  _exists : option bool;
  _lastUpdateTime : option Timestamp
}.

Definition Timestamp_toProto (t : Timestamp) : ITimestamp :=
  mkITimestamp (_seconds t) (_nanoseconds t).

Definition Precondition_toProto (p : Precondition) : option IPrecondition :=
  match _lastUpdateTime p, _exists p with
  | Some t, _ => Some (mkIPrecondition None (Some (Timestamp_toProto t)))
  | None, Some e => Some (mkIPrecondition (Some e) None)
  | None, None => None
  end.

(** Modelled from the spec: [FieldPath.compareTo] and [FieldPath.isPrefixOf]
    (path.ts) are not among the sources.  Paths are compared segment by
    segment, a path sorting before each of its extensions, and ["a"] is a
    prefix of ["a.b"] (and of itself). *)
Fixpoint compareTo (left right : FieldPath) : comparison :=
  match left, right with
  | [], [] => Eq
  | [], _ :: _ => Lt
  | _ :: _, [] => Gt
  | x :: left', y :: right' =>
      match String.compare x y with
      | Eq => compareTo left' right'
      | c => c
      end
  end.

Fixpoint isPrefixOf (this other : FieldPath) : bool :=
  match this, other with
  | [], _ => true
  | _ :: _, [] => false
  | x :: this', y :: other' => String.eqb x y && isPrefixOf this' other'
  end.

(** The order a comparator induces on an array passed to [sort]. *)
Definition path_le (left right : FieldPath) : Prop := compareTo left right <> Gt.

#[global] Instance path_le_dec (left right : FieldPath) : Decision (path_le left right).
Proof. unfold path_le. destruct (compareTo left right); [left | left | right]; congruence. Defined.

(** ** Outcomes and the batch monad *)

(** How a call ends: it returns, it throws (a rejected promise is a throw
    of the awaiting caller), or the bound on [commit_]'s recursion ran out. *)
Inductive Res (A : Type) :=
| Ok (a : A)
| Throw (e : Exn)
| OutOfFuel.
Arguments Ok {A} a.
Arguments Throw {A} e.
Arguments OutOfFuel {A}.

(** A deferred promise: pending, or resolved with a value (a second
    [resolve] is ignored). *)
Definition Deferred (A : Type) := option A.

Definition resolve {A} (d : Deferred A) (v : A) : Deferred A :=
  match d with
  | None => Some v
  | Some _ => d
  end.

Record UpdateBuilder := mkUpdateBuilder {
  state : BatchState;
  docPaths : gset string;
  completedDeferred : Deferred unit;
  resultsMap : gmap nat (Deferred BatchWriteResult);
  _ops : list (unit -> WriteOp);
  _committed : bool;
  maxBatchSize : Z
}.

(** [new UpdateBuilder(firestore, maxBatchSize)]. *)
Definition newBatch (maxBatchSize : Z) : UpdateBuilder :=
  mkUpdateBuilder OPEN ∅ None ∅ [] false maxBatchSize.

(** What a computation records: every invocation of a write producer, with
    the value it returned, and every RPC handed to the transport. *)
Inductive Event :=
| Produced (w : WriteOp)
| BeginTransactionRpc (database : string)
| CommitRpc (req : CommitRequest)
| BatchWriteRpc (req : BatchWriteRequest).

(** A method of the batch: from the batch before to the batch after, the
    events in program order, and the outcome.  What was changed and
    recorded before a throw stays changed and recorded. *)
Definition M (A : Type) : Type := UpdateBuilder -> UpdateBuilder * list Event * Res A.

Definition ret {A} (a : A) : M A := fun b => (b, [], Ok a).

Definition throw {A} (e : Exn) : M A := fun b => (b, [], Throw e).

Definition bind {A B} (m : M A) (k : A -> M B) : M B :=
  fun b =>
    match m b with
    | (b1, tr1, Ok a) => let '(b2, tr2, r) := k a b1 in (b2, tr1 ++ tr2, r)
    | (b1, tr1, Throw e) => (b1, tr1, Throw e)
    | (b1, tr1, OutOfFuel) => (b1, tr1, OutOfFuel)
    end.

Definition get : M UpdateBuilder := fun b => (b, [], Ok b).

Definition modify (f : UpdateBuilder -> UpdateBuilder) : M unit := fun b => (f b, [], Ok tt).

Definition emit (e : Event) : M unit := fun b => (b, [e], Ok tt).

Definition lift {A} (r : Res A) : M A := fun b => (b, [], r).

#[global] Instance M_ret : MRet M := @ret.
#[global] Instance M_bind : MBind M := fun A B k m => bind m k.

(** [assert(cond, msg)] of Node's assert module. *)
Definition assert (cond : bool) (msg : string) : M unit :=
  if cond then ret tt else throw (AssertionError msg).

(** An absent validator's verdict on the call's arguments: [None] when it
    returns, [Some msg] when it throws [Error(msg)]. *)
Definition Check := option string.

Definition check (c : Check) : M unit :=
  match c with
  | None => ret tt
  | Some msg => throw (JsError msg)
  end.

(** [try { body } catch (err) { throw wrap(err) }]. *)
Definition rethrow {A} (wrap : Exn -> Exn) (body : M A) : M A :=
  fun b =>
    match body b with
    | (b1, tr1, Throw e) => (b1, tr1, Throw (wrap e))
    | r => r
    end.

Fixpoint mapM {A B} (f : A -> M B) (l : list A) : M (list B) :=
  match l with
  | [] => mret []
  | x :: l' => y ← f x; ys ← mapM f l'; mret (y :: ys)
  end.

(** ** The transport side: the [Firestore] client as the batch sees it *)

(** One record is the client during one call of [bulkCommit] or [commit_]:
    [initializeIfNeeded] and the three RPCs return or reject, [now] is
    [new Date().getTime()], and [_lastSuccessfulRequest] is the field as the
    call finds it.  The call reads that field at most once, in
    [_shouldCreateTransaction], before it sends any RPC.  The client itself
    is not part of this file: it assigns the field after an RPC that
    succeeded, so the client that a later call meets is another record. *)
Record Firestore := mkFirestore {
  fs_formattedName : string;
  initializeIfNeeded : Res unit;
  request_batchWrite : BatchWriteRequest -> Res BatchWriteResponse;
  request_commit : CommitRequest -> Res CommitResponse;
  request_beginTransaction : Res BeginTransactionResponse;
  _preferTransactions : bool;
  _lastSuccessfulRequest : option Z;
  now : Z
}.

(** ** Field updates of the batch *)

Definition set_state (s : BatchState) (b : UpdateBuilder) : UpdateBuilder :=
  mkUpdateBuilder s (docPaths b) (completedDeferred b) (resultsMap b) (_ops b)
    (_committed b) (maxBatchSize b).

Definition set_docPaths (d : gset string) (b : UpdateBuilder) : UpdateBuilder :=
  mkUpdateBuilder (state b) d (completedDeferred b) (resultsMap b) (_ops b)
    (_committed b) (maxBatchSize b).

Definition set_completedDeferred (c : Deferred unit) (b : UpdateBuilder) : UpdateBuilder :=
  mkUpdateBuilder (state b) (docPaths b) c (resultsMap b) (_ops b)
    (_committed b) (maxBatchSize b).

Definition set_resultsMap (m : gmap nat (Deferred BatchWriteResult)) (b : UpdateBuilder)
  : UpdateBuilder :=
  mkUpdateBuilder (state b) (docPaths b) (completedDeferred b) m (_ops b)
    (_committed b) (maxBatchSize b).

Definition set_ops (ops : list (unit -> WriteOp)) (b : UpdateBuilder) : UpdateBuilder :=
  mkUpdateBuilder (state b) (docPaths b) (completedDeferred b) (resultsMap b) ops
    (_committed b) (maxBatchSize b).

Definition set_committed (c : bool) (b : UpdateBuilder) : UpdateBuilder :=
  mkUpdateBuilder (state b) (docPaths b) (completedDeferred b) (resultsMap b) (_ops b)
    c (maxBatchSize b).

(** ** UpdateBuilder *)

Record DocumentReference := mkDocumentReference {
  path : string;
  formattedName : string
}.

(** [get opCount()] and [get isEmpty()]. *)
Definition opCount (b : UpdateBuilder) : nat := size (resultsMap b).

Definition isEmpty (b : UpdateBuilder) : bool := Nat.eqb (length (_ops b)) 0.

Definition verifyNotCommitted : M unit :=
  b ← get;
  if _committed b
  then throw (JsError "Cannot modify a WriteBatch that has been committed.")
  else mret tt.

(** The promise [processOperation] returns is the [then] of the deferred it
    stores under the returned slot: see [settle] and [promiseOf]. *)
Definition processOperation (documentRef : DocumentReference) : M nat :=
  b ← get;
  assert (negb (bool_decide (path documentRef ∈ docPaths b)))
    "Batch should not contain writes to the same document";;
  assert (BatchState_eqb (state b) OPEN)
    "Batch should be OPEN when adding writes";;
  modify (fun b => set_docPaths ({[path documentRef]} ∪ docPaths b) b);;
  b1 ← get;
  let slot := opCount b1 in
  modify (fun b => set_resultsMap (<[slot := None]> (resultsMap b)) b);;
  b2 ← get;
  (if Z.of_nat (opCount b2) =? maxBatchSize b2
   then modify (set_state READY_TO_SEND)
   else mret tt);;
  mret slot.

Inductive Settled :=
| Fulfilled (r : WriteResult)
| RejectedWith (e : GoogleError).

(** [result => { if (result.writeTime) return new WriteResult(...); else throw result.status }] *)
Definition settle (result : BatchWriteResult) : Settled :=
  match br_writeTime result with
  | Some t => Fulfilled (mkWriteResult t)
  | None => RejectedWith (br_status result)
  end.

(** The state of the promise handed out for [slot]: [None] while it is
    pending (or when there is no such slot). *)
Definition promiseOf (b : UpdateBuilder) (slot : nat) : option Settled :=
  match resultsMap b !! slot with
  | Some (Some result) => Some (settle result)
  | _ => None
  end.

(** [if (!transform.isEmpty) write.updateTransforms = transform.toProto(...)] *)
Definition withTransforms (w : IWrite) (transforms : list string) : IWrite :=
  match transforms with
  | [] => w
  | _ => mkIWrite (w_update w) (w_delete w) (w_updateMask w) (Some transforms)
           (w_currentDocument w)
  end.

(** [write.updateMask = documentMask.toProto()] *)
Definition withUpdateMask (w : IWrite) (mask : list FieldPath) : IWrite :=
  mkIWrite (w_update w) (w_delete w) (Some mask) (w_updateTransforms w)
    (w_currentDocument w).

(** [write.currentDocument = precondition] *)
Definition withCurrentDocument (w : IWrite) (p : IPrecondition) : IWrite :=
  mkIWrite (w_update w) (w_delete w) (w_updateMask w) (w_updateTransforms w) (Some p).

(** [this._ops.push(op)] *)
Definition push_op (op : unit -> WriteOp) (b : UpdateBuilder) : UpdateBuilder :=
  set_ops (_ops b ++ [op]) b.

(** *** create *)

Record CreateCall := mkCreateCall {
  cr_documentRef : DocumentReference;
  cr_validateDocumentReference : Check;
  (** [documentRef._converter.toFirestore(data)], the converter of the
      caller: it returns or throws *)
  cr_toFirestore : Check;
  cr_validateDocumentData : Check;
  cr_transform_validate : Check;
  (** [DocumentSnapshot.fromObject(documentRef, firestoreData).toProto()] *)
  cr_document : IWrite;
  (** [transform.toProto(serializer)], empty when [transform.isEmpty] *)
  cr_transform : list string
}.

Definition create_op (c : CreateCall) (precondition : Precondition) : unit -> WriteOp :=
  fun _ =>
    let write := withTransforms (cr_document c) (cr_transform c) in
    mkWriteOp write (Precondition_toProto precondition).

Definition create (c : CreateCall) : M nat :=
  check (cr_validateDocumentReference c);;
  check (cr_toFirestore c);;
  check (cr_validateDocumentData c);;
  verifyNotCommitted;;
  check (cr_transform_validate c);;
  let precondition := mkPrecondition (Some false) None in
  modify (push_op (create_op c precondition));;
  processOperation (cr_documentRef c).

(** JavaScript truthiness of a nullable object reference. *)
Definition truthy {A} (o : option A) : bool :=
  match o with
  | Some _ => true
  | None => false
  end.

(** *** Preconditions supplied by the caller *)

(** A property of a JavaScript object as the validators look at it. *)
Inductive JsField (A : Type) :=
| Undefined
| Present (a : A)
| WrongType.
Arguments Undefined {A}.
Arguments Present {A} a.
Arguments WrongType {A}.

(** A value passed where a precondition is expected: something that is not
    an object (a primitive, [null], [undefined]), or an object with its
    [exists] and [lastUpdateTime] properties. *)
Inductive PreconditionArg :=
| NotAnObject
| PreconditionObject (exists_ : JsField bool) (lastUpdateTime : JsField Timestamp).

Definition is_defined {A} (f : JsField A) : bool :=
  match f with
  | Undefined => false
  | _ => true
  end.

Definition field_value {A} (f : JsField A) : option A :=
  match f with
  | Present a => Some a
  | _ => None
  end.

(** The double quotes inside the source's messages are written as
    apostrophes here. *)
Definition validatePrecondition (arg : string) (value : PreconditionArg)
    (allowExists : bool) : M unit :=
  match value with
  | NotAnObject => throw (JsError "Input is not an object.")
  | PreconditionObject exists_ lastUpdateTime =>
      (if is_defined exists_ then
         if negb allowExists then
           throw (InvalidArgument arg "precondition"
                    "'exists' is not an allowed precondition.")
         else
           match exists_ with
           | WrongType =>
               throw (InvalidArgument arg "precondition" "'exists' is not a boolean.")
           | _ => mret tt
           end
       else mret tt);;
      (match lastUpdateTime with
       | WrongType =>
           throw (InvalidArgument arg "precondition"
                    "'lastUpdateTime' is not a Firestore Timestamp.")
       | _ => mret tt
       end);;
      let conditions :=
        ((if is_defined exists_ then 1 else 0)
         + (if is_defined lastUpdateTime then 1 else 0))%nat in
      if (1 <? conditions)%nat then
        throw (InvalidArgument arg "precondition"
                 "Input specifies more than one precondition.")
      else mret tt
  end.

(** Modelled from the spec: [validateOptional] (validate.ts) is not among the
    sources; it tells whether an omitted value may stay omitted. *)
Definition validateOptional (value : option PreconditionArg) (optional : bool) : bool :=
  match value with
  | None => optional
  | Some _ => false
  end.

Definition validateUpdatePrecondition (arg : string) (value : PreconditionArg) : M unit :=
  if negb (validateOptional (Some value) false)
  then validatePrecondition arg value false
  else mret tt.

Definition validateDeletePrecondition (arg : string) (value : option PreconditionArg)
    (optional : bool) : M unit :=
  if negb (validateOptional value optional)
  then validatePrecondition arg (default NotAnObject value) true
  else mret tt.

(** [new Precondition(options)] *)
Definition newPrecondition (options : option PreconditionArg) : Precondition :=
  match options with
  | Some (PreconditionObject exists_ lastUpdateTime) =>
      mkPrecondition (field_value exists_) (field_value lastUpdateTime)
  | _ => mkPrecondition None None
  end.

(** *** delete *)

Record DeleteCall := mkDeleteCall {
  dl_documentRef : DocumentReference;
  dl_validateDocumentReference : Check;
  dl_precondition : option PreconditionArg
}.

Definition delete_op (c : DeleteCall) (conditions : Precondition) : unit -> WriteOp :=
  fun _ =>
    mkWriteOp (mkIWrite None (Some (formattedName (dl_documentRef c))) None None None)
      (Precondition_toProto conditions).

Definition delete (c : DeleteCall) : M nat :=
  check (dl_validateDocumentReference c);;
  validateDeletePrecondition "precondition" (dl_precondition c) true;;
  verifyNotCommitted;;
  let conditions := newPrecondition (dl_precondition c) in
  modify (push_op (delete_op c conditions));;
  processOperation (dl_documentRef c).

(** *** set *)

(** The data of the call is seen through what is done with it: the
    converter, the validators, the mask and the serialiser each return or
    throw, and [firestoreData] (after [applyTo], when fields are merged) is
    known by its document, its transforms and its mask. *)
Record SetCall := mkSetCall {
  se_documentRef : DocumentReference;
  se_validateSetOptions : Check;
  (** [options && options.merge === true] *)
  se_mergeLeaves : bool;
  (** [options && options.mergeFields] *)
  se_mergePaths : option (list FieldPath);
  se_validateDocumentReference : Check;
  (** [documentRef._converter.toFirestore(data)], the converter of the
      caller: it returns or throws *)
  se_toFirestore : Check;
  se_validateDocumentData : Check;
  (** [documentMask.applyTo(firestoreData)], reached only when fields are
      merged: it throws when the data has no value for one of them *)
  se_applyTo : Check;
  se_transform_validate : Check;
  (** [DocumentSnapshot.fromObject(documentRef, firestoreData).toProto()] *)
  se_document : IWrite;
  (** [transform.fields] and [transform.toProto(serializer)] *)
  se_transform_fields : list FieldPath;
  se_transform : list string;
  (** the paths of [DocumentMask.fromObject(firestoreData)] *)
  se_dataMask : list FieldPath
}.

(** Modelled from the spec: the [DocumentMask] class (document.ts) is not
    among the sources.  The spec calls an update mask a set of field paths;
    the mask is held as its paths in the order of [FieldPath.compareTo],
    whatever the order in which the caller listed them, and [removeFields]
    takes paths out of it. *)
Definition fromFieldMask (fieldMask : list FieldPath) : list FieldPath :=
  merge_sort path_le fieldMask.

Definition removeFields (mask fields : list FieldPath) : list FieldPath :=
  filter (fun f => f ∉ fields) mask.

Definition set_op (c : SetCall) : unit -> WriteOp :=
  fun _ =>
    let documentMask :=
      match se_mergePaths c with
      | Some mergeFields =>
          removeFields (fromFieldMask mergeFields) (se_transform_fields c)
      | None => se_dataMask c
      end in
    let write := withTransforms (se_document c) (se_transform c) in
    let hasMerge := truthy (se_mergePaths c) || se_mergeLeaves c in
    let write :=
      if hasMerge && negb (Nat.eqb (length documentMask) 0)
      then withUpdateMask write documentMask
      else write in
    mkWriteOp write None.

Definition set (c : SetCall) : M nat :=
  check (se_validateSetOptions c);;
  check (se_validateDocumentReference c);;
  check (se_toFirestore c);;
  check (se_validateDocumentData c);;
  verifyNotCommitted;;
  (if truthy (se_mergePaths c) then check (se_applyTo c) else mret tt);;
  check (se_transform_validate c);;
  modify (push_op (set_op c));;
  processOperation (se_documentRef c).

(** *** update *)

(** The first adjacent pair of the sorted array whose left path is a prefix
    of the right one: the loop [for (let i = 1; i < fields.length; ++i)]. *)
Fixpoint firstConflict (fields : list FieldPath) : option FieldPath :=
  match fields with
  | prev :: ((next :: _) as rest) =>
      if isPrefixOf prev next then Some prev else firstConflict rest
  | _ => None
  end.

Definition validateNoConflictingFields (arg : string) (data : list (FieldPath * string))
  : M unit :=
  let fields := map fst data in
  let fields := merge_sort path_le fields in
  match firstConflict fields with
  | Some field => throw (FieldConflict arg field)
  | None => mret tt
  end.

(** The update map holds one entry per field argument, in argument order:
    its keys are [FieldPath] objects, compared by identity, so two arguments
    naming the same path are two entries.  Both call forms (an object, or
    alternating fields and values) fill it the same way and validate the
    fields before the trailing precondition. *)
Record UpdateCall := mkUpdateCall {
  up_documentRef : DocumentReference;
  up_validateMinNumberOfArguments : Check;
  up_validateDocumentReference : Check;
  up_updateMap : list (FieldPath * string);
  (** [validateUpdateMap], [validateFieldPath], [validateFieldValue] and the
      argument counts, over the field arguments *)
  up_validateFields : Check;
  (** the trailing precondition argument, when one is passed, and the name
      it is validated under: ['preconditionOrValues'], or the index of the
      last argument in the alternating form *)
  up_precondition : option PreconditionArg;
  up_preconditionArg : string;
  up_transform_validate : Check;
  (** [DocumentSnapshot.fromUpdateMap(documentRef, updateMap).toProto()] *)
  up_document : IWrite;
  up_transform : list string;
  (** [DocumentMask.fromUpdateMap(updateMap)] *)
  up_documentMask : list FieldPath
}.

Definition update_op (c : UpdateCall) (precondition : Precondition) : unit -> WriteOp :=
  fun _ =>
    let write := withUpdateMask (up_document c) (up_documentMask c) in
    let write := withTransforms write (up_transform c) in
    mkWriteOp write (Precondition_toProto precondition).

Definition update (c : UpdateCall) : M nat :=
  check (up_validateMinNumberOfArguments c);;
  check (up_validateDocumentReference c);;
  verifyNotCommitted;;
  precondition ← rethrow UpdateUsage
    (check (up_validateFields c);;
     match up_precondition c with
     | Some value =>
         validateUpdatePrecondition (up_preconditionArg c) value;;
         mret (newPrecondition (Some value))
     | None => mret (mkPrecondition (Some true) None)
     end);
  validateNoConflictingFields "dataOrField" (up_updateMap c);;
  check (up_transform_validate c);;
  modify (push_op (update_op c precondition));;
  processOperation (up_documentRef c).

(** *** Serialisation and the two commits *)

(** [op()], with the call recorded. *)
Definition invoke (op : unit -> WriteOp) : M WriteOp :=
  let req := op tt in
  emit (Produced req);;
  mret req.

(** The body of [for (const req of writes)]: the write that is pushed onto
    the request. *)
Definition attach (req : WriteOp) : IWrite :=
  match precondition req with
  | Some p => withCurrentDocument (write req) p
  | None => write req
  end.

(** [new GoogleError(status.message || undefined)] with [code] assigned. *)
Definition errorOf (status : IStatus) : GoogleError :=
  mkGoogleError (default "" (st_message status)) (st_code status).

(** [(response.writeResults || []).map((result, i) => ...)] of [bulkCommit];
    the array is walked from index [i]. *)
Fixpoint bulkResults (results : list IWriteResult) (status : list IStatus) (i : nat)
  : Res (list BatchWriteResult) :=
  match results with
  | [] => Ok []
  | result :: rest =>
      match status !! i with
      | None => Throw (TypeError "Cannot read properties of undefined")
      | Some st =>
          let error := errorOf st in
          let r := mkBatchWriteResult (Timestamp_fromProto <$> updateTime result) error in
          match bulkResults rest status (S i) with
          | Ok rs => Ok (r :: rs)
          | other => other
          end
      end
  end.

Definition bulkCommit (fs : Firestore) : M (list BatchWriteResult) :=
  modify (set_committed true);;
  lift (initializeIfNeeded fs);;
  let database := fs_formattedName fs in
  b ← get;
  writes ← mapM invoke (_ops b);
  let request := mkBatchWriteRequest database (map attach writes) in
  emit (BatchWriteRpc request);;
  response ← lift (request_batchWrite fs request);
  lift (bulkResults (default [] (bw_writeResults response)) (bw_status response) 0).

(** [if (this._firestore._lastSuccessfulRequest)]: a number is falsy when it
    is [undefined] or 0. *)
Definition truthy_number (n : option Z) : bool :=
  match n with
  | Some t => negb (t =? 0)
  | None => false
  end.

Definition _shouldCreateTransaction (fs : Firestore) : bool :=
  if negb (_preferTransactions fs) then false
  else if truthy_number (_lastSuccessfulRequest fs) then
    now fs - default 0 (_lastSuccessfulRequest fs) >? GCF_IDLE_TIMEOUT_MS
  else true.

Record CommitOptions := mkCommitOptions {
  transactionId : option (list Byte.byte);
  requestTag : option string
}.

(** [writeResult => new WriteResult(Timestamp.fromProto(writeResult.updateTime
    || response.commitTime!))] over the response. *)
Fixpoint commitResults (results : list IWriteResult) (commitTime : option ITimestamp)
  : Res (list WriteResult) :=
  match results with
  | [] => Ok []
  | writeResult :: rest =>
      match (match updateTime writeResult with Some t => Some t | None => commitTime end) with
      | None => Throw (TypeError "Cannot read properties of undefined")
      | Some t =>
          match commitResults rest commitTime with
          | Ok rs => Ok (mkWriteResult (Timestamp_fromProto t) :: rs)
          | other => other
          end
      end
  end.

(** [commit_] calls itself once more after [beginTransaction]; [fuel] bounds
    the depth of that recursion. *)
Fixpoint commit_ (fuel : nat) (fs : Firestore) (commitOptions : option CommitOptions)
  : M (list WriteResult) :=
  match fuel with
  | O => lift OutOfFuel
  | S fuel' =>
      modify (set_committed true);;
      lift (initializeIfNeeded fs);;
      let database := fs_formattedName fs in
      let explicitTransaction := commitOptions ≫= transactionId in
      if negb (truthy explicitTransaction) && _shouldCreateTransaction fs then
        emit (BeginTransactionRpc database);;
        resp ← lift (request_beginTransaction fs);
        commit_ fuel' fs (Some (mkCommitOptions (Some (transaction resp)) None))
      else
        b ← get;
        writes ← mapM invoke (_ops b);
        let request :=
          mkCommitRequest database (map attach writes) explicitTransaction in
        emit (CommitRpc request);;
        response ← lift (request_commit fs request);
        lift (commitResults (default [] (cm_writeResults response)) (commitTime response))
  end.

Definition _reset : M unit :=
  modify (set_ops []);;
  modify (set_committed false).

(** [results.map((result, index) => this.resultsMap.get(index)!.resolve(result))],
    walked from [index]. *)
Fixpoint resolveAll (results : list BatchWriteResult) (index : nat) : M unit :=
  match results with
  | [] => mret tt
  | result :: rest =>
      b ← get;
      match resultsMap b !! index with
      | None => throw (TypeError "Cannot read properties of undefined")
      | Some deferred =>
          modify (fun b => set_resultsMap (<[index := resolve deferred result]> (resultsMap b)) b);;
          resolveAll rest (S index)
      end
  end.

Definition processResults (results : list BatchWriteResult) : M unit :=
  resolveAll results 0;;
  modify (fun b => set_completedDeferred (resolve (completedDeferred b) tt) b).

Definition markReadyToSend : M unit :=
  b ← get;
  if BatchState_eqb (state b) OPEN
  then modify (set_state READY_TO_SEND)
  else mret tt.

(** Returns [completedDeferred.promise]: resolved or still pending. *)
Definition awaitBulkCommit : M (Deferred unit) :=
  markReadyToSend;;
  b ← get;
  mret (completedDeferred b).

(** Running a computation on a batch: the batch afterwards, the events, the
    outcome. *)
Definition batch_of {A} (r : UpdateBuilder * list Event * Res A) : UpdateBuilder := r.1.1.
Definition events_of {A} (r : UpdateBuilder * list Event * Res A) : list Event := r.1.2.
Definition outcome_of {A} (r : UpdateBuilder * list Event * Res A) : Res A := r.2.

(** The four write calls as one value, and the method each one runs. *)
Inductive WriteCall :=
| Create (c : CreateCall)
| Set_ (c : SetCall)
| Update (c : UpdateCall)
| Delete (c : DeleteCall).

Definition documentRef (op : WriteCall) : DocumentReference :=
  match op with
  | Create c => cr_documentRef c
  | Set_ c => se_documentRef c
  | Update c => up_documentRef c
  | Delete c => dl_documentRef c
  end.

Definition append (op : WriteCall) : M nat :=
  match op with
  | Create c => create c
  | Set_ c => set c
  | Update c => update c
  | Delete c => delete c
  end.

(** The precondition [update] ends up with when its arguments validate. *)
Definition update_precondition (c : UpdateCall) : Precondition :=
  match up_precondition c with
  | Some value => newPrecondition (Some value)
  | None => mkPrecondition (Some true) None
  end.

(** The producer a call pushes onto [_ops]. *)
Definition producer (op : WriteCall) : unit -> WriteOp :=
  match op with
  | Create c => create_op c (mkPrecondition (Some false) None)
  | Set_ c => set_op c
  | Update c => update_op c (update_precondition c)
  | Delete c => delete_op c (newPrecondition (dl_precondition c))
  end.

(** The write a producer contributes to a request. *)
Definition wire (op : unit -> WriteOp) : IWrite := attach (op tt).

(** The RPCs among the recorded events. *)
Definition is_rpc (e : Event) : bool :=
  match e with
  | Produced _ => false
  | _ => true
  end.

Definition rpcs (evs : list Event) : list Event := List.filter is_rpc evs.

(** ** BulkWriter *)

Module BulkWriter.

(** Modelled from the spec: the BulkWriter class (bulk-writer.ts) is not
    among the sources, only its tests are.  This is the scheduler of the
    spec's section 4.2 over the batches above, with the default of one
    batch in flight and a transport that answers an RPC before the
    scheduler takes its next step; no batch is then in flight when a write
    is enqueued, and the blocked-on set of step 4 stays empty.  [sent]
    keeps the batches that left the queue, so that their result promises
    can still be read; [log] is what the writer has put on the wire. *)
Record t := mk {
  batchQueue : list UpdateBuilder;
  sent : list UpdateBuilder;
  closed : bool;
  maxBatchSize : Z;
  log : list Event
}.

Definition new (maxBatchSize : Z) : t := mk [] [] false maxBatchSize [].

Definition errorOfExn (e : Exn) : GoogleError :=
  match e with
  | Rejected g => g
  | JsError msg | AssertionError msg | TypeError msg => mkGoogleError msg None
  | _ => mkGoogleError "" None
  end.

(** Modelled from the spec: [send] moves the batch to Sent, performs the
    RPC, distributes the results and resolves the completion; a transport
    failure rejects every operation of the batch with the transport's
    error. *)
Definition send (fs : Firestore) (b : UpdateBuilder) : UpdateBuilder * list Event :=
  let '(b1, evs1, r) := (modify (set_state SENT);; bulkCommit fs) b in
  let results :=
    match r with
    | Ok rs => rs
    | Throw e => replicate (opCount b1) (mkBatchWriteResult None (errorOfExn e))
    | OutOfFuel => []
    end in
  let '(b2, evs2, _) := processResults results b1 in
  (b2, evs1 ++ evs2).

(** Modelled from the spec: the dispatcher sends the batches at the head
    of the queue for as long as they are ReadyToSend. *)
Fixpoint dispatch (fs : Firestore) (queue : list UpdateBuilder)
  : list UpdateBuilder * list UpdateBuilder * list Event :=
  match queue with
  | b :: rest =>
      if BatchState_eqb (state b) READY_TO_SEND then
        let '(b', evs) := send fs b in
        let '(done, remaining, evs') := dispatch fs rest in
        (b' :: done, remaining, evs ++ evs')
      else ([], queue, [])
  | [] => ([], [], [])
  end.

Definition kick (fs : Firestore) (w : t) : t :=
  let '(done, remaining, evs) := dispatch fs (batchQueue w) in
  mk remaining (sent w ++ done) (closed w) (maxBatchSize w) (log w ++ evs).

(** Step 2 of the enqueue algorithm: make sure the queue ends in an Open
    batch. *)
Definition ensureOpen (maxBatchSize : Z) (queue : list UpdateBuilder)
  : list UpdateBuilder :=
  match last queue with
  | Some current =>
      if BatchState_eqb (state current) OPEN then queue
      else queue ++ [newBatch maxBatchSize]
  | None => queue ++ [newBatch maxBatchSize]
  end.

(** Step 3: a write to a document of the current batch closes that batch
    and opens a new one. *)
Definition splitOnSameDocument (maxBatchSize : Z) (docPath : string)
    (queue : list UpdateBuilder) : list UpdateBuilder :=
  match last queue with
  | Some current =>
      if bool_decide (docPath ∈ docPaths current) then
        removelast queue ++ [batch_of (markReadyToSend current); newBatch maxBatchSize]
      else queue
  | None => queue
  end.

(** Step 5: append to the batch at the end of the queue. *)
Definition appendToLast (op : WriteCall) (queue : list UpdateBuilder)
  : list UpdateBuilder * Res nat :=
  match last queue with
  | Some current =>
      let r := append op current in
      (removelast queue ++ [batch_of r], outcome_of r)
  | None => (queue, Throw (TypeError "no current batch"))
  end.

(** Steps 1 to 5: where the write goes. *)
Definition route (op : WriteCall) (w : t) : t * Res nat :=
  if closed w then (w, Throw (JsError "BulkWriter has already been closed."))
  else
    let queue := ensureOpen (maxBatchSize w) (batchQueue w) in
    let queue := splitOnSameDocument (maxBatchSize w) (path (documentRef op)) queue in
    let '(queue, r) := appendToLast op queue in
    (mk queue (sent w) (closed w) (maxBatchSize w) (log w), r).

(** The enqueue algorithm: route the write, then kick the dispatcher. *)
Definition enqueue (fs : Firestore) (op : WriteCall) (w : t) : t * Res nat :=
  let '(w1, r) := route op w in
  (kick fs w1, r).

Definition flush (fs : Firestore) (w : t) : t * Res unit :=
  if closed w then (w, Throw (JsError "BulkWriter has already been closed."))
  else
    let queue := map (fun b => batch_of (markReadyToSend b)) (batchQueue w) in
    (kick fs (mk queue (sent w) (closed w) (maxBatchSize w) (log w)), Ok tt).

Definition close (fs : Firestore) (w : t) : t * Res unit :=
  let '(w1, r) := flush fs w in
  match r with
  | Ok _ => (mk (batchQueue w1) (sent w1) true (maxBatchSize w1) (log w1), Ok tt)
  | other => (w1, other)
  end.

(** The requests the writer has sent, oldest first. *)
Definition requests (w : t) : list BatchWriteRequest :=
  omap (fun e => match e with BatchWriteRpc req => Some req | _ => None end) (log w).

End BulkWriter.

(** * Vocabulary of the properties *)

(** ** Shapes of computations *)

(** A computation is [inert] when it returns or throws without changing the
    batch and without any event. *)
Definition inert {A} (m : M A) : Prop :=
  forall b, (exists a, m b = (b, [], Ok a)) \/ (exists e, m b = (b, [], Throw e)).

(** A computation is [silent] when it records no event: it invokes no
    producer and sends no RPC. *)
Definition silent {A} (m : M A) : Prop := forall b, events_of (m b) = [].

(** A validator that returns, whatever the batch. *)
Definition passes (m : M unit) : Prop := forall b, m b = (b, [], Ok tt).

(** ** Write calls *)

(** Every step of the call that looks at its arguments only returns: the
    validators, the converter of a [create] or [set] and, when the [set]
    merges fields, the mask applied to the data. *)
Definition validates (op : WriteCall) : Prop :=
  match op with
  | Create c =>
      cr_validateDocumentReference c = None /\ cr_toFirestore c = None /\
      cr_validateDocumentData c = None /\ cr_transform_validate c = None
  | Set_ c =>
      se_validateSetOptions c = None /\ se_validateDocumentReference c = None /\
      se_toFirestore c = None /\ se_validateDocumentData c = None /\
      (truthy (se_mergePaths c) = true -> se_applyTo c = None) /\
      se_transform_validate c = None
  | Update c =>
      up_validateMinNumberOfArguments c = None /\ up_validateDocumentReference c = None /\
      up_validateFields c = None /\
      match up_precondition c with
      | Some value => passes (validateUpdatePrecondition (up_preconditionArg c) value)
      | None => True
      end /\
      passes (validateNoConflictingFields "dataOrField" (up_updateMap c)) /\
      up_transform_validate c = None
  | Delete c =>
      dl_validateDocumentReference c = None /\
      passes (validateDeletePrecondition "precondition" (dl_precondition c) true)
  end.

(** The messages of [verifyNotCommitted] and of the two assertions of
    [processOperation]. *)
Definition committed_message : string :=
  "Cannot modify a WriteBatch that has been committed.".

Definition duplicate_message : string :=
  "Batch should not contain writes to the same document".

Definition not_open_message : string :=
  "Batch should be OPEN when adding writes".

(** The batch [processOperation] leaves behind when it returns. *)
Definition recorded (d : DocumentReference) (b : UpdateBuilder) : UpdateBuilder :=
  let slots := <[opCount b := None]> (resultsMap b) in
  mkUpdateBuilder
    (if Z.of_nat (size slots) =? maxBatchSize b then READY_TO_SEND else OPEN)
    ({[path d]} ∪ docPaths b) (completedDeferred b) slots (_ops b) (_committed b)
    (maxBatchSize b).

(** The batch that holds a first write and nothing else. *)
Definition first_batch (op : WriteCall) (maxSize : Z) : UpdateBuilder :=
  recorded (documentRef op) (push_op (producer op) (newBatch maxSize)).

(** A sequence of write calls on one batch. *)
Fixpoint appendAll (ops : list WriteCall) : M unit :=
  match ops with
  | [] => mret tt
  | op :: rest => append op;; appendAll rest
  end.

(** Two entries of the list, at different positions, one of which is a
    prefix of the other. *)
Definition conflicting (fields : list FieldPath) : Prop :=
  exists l1 p l2 q l3,
    fields = l1 ++ p :: l2 ++ q :: l3 /\
    (isPrefixOf p q = true \/ isPrefixOf q p = true).

(** ** Requests and results *)

(** [op()] *)
Definition run (op : unit -> WriteOp) : WriteOp := op tt.

(** The invocations of the batch's producers, first operation first. *)
Definition produced (b : UpdateBuilder) : list Event :=
  map (fun op => Produced (run op)) (_ops b).

(** The request [bulkCommit] builds from the batch. *)
Definition bulkRequest (fs : Firestore) (b : UpdateBuilder) : BatchWriteRequest :=
  mkBatchWriteRequest (fs_formattedName fs) (map wire (_ops b)).

(** The request [commit_] builds from the batch. *)
Definition commitRequest (fs : Firestore) (tx : option (list Byte.byte)) (b : UpdateBuilder)
  : CommitRequest :=
  mkCommitRequest (fs_formattedName fs) (map wire (_ops b)) tx.

(** [commitOptions && commitOptions.transactionId] *)
Definition explicitTransaction (commitOptions : option CommitOptions)
  : option (list Byte.byte) := commitOptions ≫= transactionId.

(** What the non-transactional tail of [commit_] does with the batch. *)
Definition commit_send (fs : Firestore) (tx : option (list Byte.byte)) (b : UpdateBuilder)
  : UpdateBuilder * list Event * Res (list WriteResult) :=
  (set_committed true b, produced b ++ [CommitRpc (commitRequest fs tx b)],
   match request_commit fs (commitRequest fs tx b) with
   | Ok response =>
       commitResults (default [] (cm_writeResults response)) (commitTime response)
   | Throw e => Throw e
   | OutOfFuel => OutOfFuel
   end).

(** [lastSuccessfulRequestMillis] of the spec: the time of the last request
    that succeeded, in milliseconds; it is unset when the client holds no
    such time, which is the field being [undefined] or [0], the number it
    has before a first request succeeds. *)
Definition lastSuccessfulRequestMillis (fs : Firestore) : option Z :=
  match _lastSuccessfulRequest fs with
  | None => None
  | Some 0 => None
  | Some millis => Some millis
  end.

(** The condition in the spec's words: [preferTransactions] is true, and
    [lastSuccessfulRequestMillis] is unset or [now] minus it exceeds
    110 000 ms. *)
Definition idle (fs : Firestore) : bool :=
  _preferTransactions fs
  && match lastSuccessfulRequestMillis fs with
     | None => true
     | Some millis => 110000 <? now fs - millis
     end.

(** [new WriteResult(Timestamp.fromProto(writeResult.updateTime || commitTime))] *)
Definition commitResultOf (commitTime : ITimestamp) (writeResult : IWriteResult)
  : WriteResult :=
  mkWriteResult (Timestamp_fromProto (default commitTime (updateTime writeResult))).

(** The [BatchWriteResult] built for one index of the response. *)
Definition bulkResultOf (writeResult : IWriteResult) (status : IStatus) : BatchWriteResult :=
  mkBatchWriteResult (Timestamp_fromProto <$> updateTime writeResult) (errorOf status).

(** The batchWrite requests among the events, oldest first. *)
Definition requestsOf (evs : list Event) : list BatchWriteRequest :=
  omap (fun e => match e with BatchWriteRpc req => Some req | _ => None end) evs.

(** ** Sample data *)

(** [firestore.doc('collectionId/' + id)] of the test project. *)
Definition sample_ref (id : string) : DocumentReference :=
  mkDocumentReference ("collectionId/" +:+ id)
    ("projects/test-project/databases/(default)/documents/collectionId/" +:+ id).

(** The wire document [{foo: value}] of that reference. *)
Definition sample_document (id value : string) : IWrite :=
  mkIWrite (Some (mkIDocument (formattedName (sample_ref id)) [("foo", value)]))
    None None None None.

(** [set(doc, {foo: value})] *)
Definition sample_set (id value : string) : SetCall :=
  mkSetCall (sample_ref id) None false None None None None None None
    (sample_document id value) [] [] [["foo"]].

(** [update(doc, {foo: value})], with a trailing precondition when given. *)
Definition sample_update (id value : string) (precondition : option PreconditionArg)
  : UpdateCall :=
  mkUpdateCall (sample_ref id) None None [(["foo"], value)] None precondition
    "preconditionOrValues" None (sample_document id value) [] [["foo"]].

(** [update(doc, {'a': '1', 'a.b': '2'})] *)
Definition sample_update_a_and_a_b : UpdateCall :=
  mkUpdateCall (sample_ref "doc") None None [(["a"], "1"); (["a"; "b"], "2")] None None
    "preconditionOrValues" None (sample_document "doc" "1") [] [["a"]; ["a"; "b"]].

(** [update(doc, {foo: 'bar1'}, {})]: an empty object as the precondition. *)
Definition sample_update_empty_precondition : UpdateCall :=
  sample_update "doc" "bar1" (Some (PreconditionObject Undefined Undefined)).

(** [firestore.formattedName] of the test project. *)
Definition sample_database : string := "projects/test-project/databases/(default)".

(** A commit response for two writes: no update time for the first,
    (5, 0) for the second, commit time (7, 0). *)
Definition sample_commit_response : CommitResponse :=
  mkCommitResponse (Some [mkIWriteResult None; mkIWriteResult (Some (mkITimestamp 5 0))])
    (Some (mkITimestamp 7 0)).

(** A client that initialises, answers every RPC the same way and hands
    out the transaction id [0x2a]. *)
Definition sample_firestore (batchWrite : Res BatchWriteResponse)
    (commit : Res CommitResponse) (preferTransactions : bool)
    (lastSuccessfulRequest : option Z) (now : Z) : Firestore :=
  mkFirestore sample_database (Ok tt) (fun _ => batchWrite) (fun _ => commit)
    (Ok (mkBeginTransactionResponse [Byte.x2a])) preferTransactions
    lastSuccessfulRequest now.

(** A client that prefers transactions and last heard from the backend
    120 seconds ago. *)
Definition sample_idle_firestore : Firestore :=
  sample_firestore (Ok (mkBatchWriteResponse None [])) (Ok sample_commit_response)
    true (Some 1000000) 1120000.

(** The responses of the tests: [successResponse(seconds)] and
    [failResponse()]. *)
Definition successResult (seconds : Z) : IWriteResult :=
  mkIWriteResult (Some (mkITimestamp seconds 0)).

Definition successStatus : IStatus := mkIStatus (Some Status_OK) None.

Definition failResult : IWriteResult := mkIWriteResult None.

Definition failStatus : IStatus := mkIStatus (Some Status_UNAVAILABLE) None.

(** One write accepted at (2, 0), one refused as UNAVAILABLE. *)
Definition sample_mixed_response : BatchWriteResponse :=
  mkBatchWriteResponse (Some [successResult 2; failResult]) [successStatus; failStatus].

(** A response whose first status is UNAVAILABLE although the write result
    carries an update time. *)
Definition sample_unavailable_with_time : BatchWriteResponse :=
  mkBatchWriteResponse (Some [successResult 2]) [failStatus].

(** A client of the bulk tests: it answers batchWrite with [response]. *)
Definition sample_bulk_firestore (response : BatchWriteResponse) : Firestore :=
  sample_firestore (Ok response) (Ok sample_commit_response) false None 0.

(** A batch after [set(doc, {foo: 'bar'})]. *)
Definition sample_batch : UpdateBuilder :=
  batch_of (append (Set_ (sample_set "doc" "bar")) (newBatch MAX_BATCH_SIZE)).

(** A batch after two sets, to [doc1] and [doc2]. *)
Definition sample_batch_of_two : UpdateBuilder :=
  batch_of ((append (Set_ (sample_set "doc1" "bar"));;
             append (Set_ (sample_set "doc2" "bar"))) (newBatch MAX_BATCH_SIZE)).

(** ** The methods of the batch as actions *)

(** A call of one of the methods of [UpdateBuilder], with its arguments. *)
Inductive Action :=
| Write (op : WriteCall)
| BulkCommit (fs : Firestore)
| Commit (fuel : nat) (fs : Firestore) (commitOptions : option CommitOptions)
| Reset
| ProcessResults (results : list BatchWriteResult)
| MarkReadyToSend
| AwaitBulkCommit.

(** The batch after the call, whether it returned or threw. *)
Definition perform (a : Action) (b : UpdateBuilder) : UpdateBuilder :=
  match a with
  | Write op => batch_of (append op b)
  | BulkCommit fs => batch_of (bulkCommit fs b)
  | Commit fuel fs commitOptions => batch_of (commit_ fuel fs commitOptions b)
  | Reset => batch_of (_reset b)
  | ProcessResults results => batch_of (processResults results b)
  | MarkReadyToSend => batch_of (markReadyToSend b)
  | AwaitBulkCommit => batch_of (awaitBulkCommit b)
  end.

(** The batch after a sequence of calls, first call first. *)
Definition performAll (actions : list Action) (b : UpdateBuilder) : UpdateBuilder :=
  fold_left (fun b a => perform a b) actions b.

(** The result slots are the keys 0 .. opCount - 1. *)
Definition slots_numbered (b : UpdateBuilder) : Prop :=
  forall k, is_Some (resultsMap b !! k) <-> (k < opCount b)%nat.

(** The slots are numbered and there is one document path per slot. *)
Definition well_formed (b : UpdateBuilder) : Prop :=
  slots_numbered b /\ size (docPaths b) = opCount b.

(** [m] is what resolving some of the deferreds of [m0] leaves: the same
    keys, every resolved deferred as it was. *)
Definition resolved_from (m0 m : gmap nat (Deferred BatchWriteResult)) : Prop :=
  forall k,
    match m0 !! k with
    | None => m !! k = None
    | Some None => is_Some (m !! k)
    | Some (Some result) => m !! k = Some (Some result)
    end.

(** A client whose [initializeIfNeeded] rejects. *)
Definition sample_uninitialized_firestore : Firestore :=
  mkFirestore sample_database (Throw (JsError "Unable to detect a Project Id"))
    (fun _ => Ok sample_mixed_response) (fun _ => Ok sample_commit_response)
    (Ok (mkBeginTransactionResponse [Byte.x2a])) true None 0.

(** A client that prefers transactions, has never completed a request, and
    whose [beginTransaction] is refused. *)
Definition sample_no_transaction_firestore : Firestore :=
  mkFirestore sample_database (Ok tt)
    (fun _ => Ok sample_mixed_response) (fun _ => Ok sample_commit_response)
    (Throw (Rejected (mkGoogleError "unavailable" (Some Status_UNAVAILABLE)))) true None 0.

(** A batchWrite response with two write results and one status. *)
Definition sample_short_status_response : BatchWriteResponse :=
  mkBatchWriteResponse (Some [successResult 2; successResult 3]) [successStatus].

(** A batch after one [set] whose result arrived: slot 0 resolved at (2, 0). *)
Definition sample_settled_batch : UpdateBuilder :=
  performAll
    [Write (Set_ (sample_set "doc" "bar"));
     ProcessResults [mkBatchWriteResult (Some (mkTimestamp 2 0)) (errorOf successStatus)]]
    (newBatch MAX_BATCH_SIZE).

(** ** The exported validators *)

(** The preconditions [validatePrecondition] lets through: an object that
    names at most one of the two conditions, [exists] a boolean and only
    where it is allowed, [lastUpdateTime] a Timestamp. *)
Definition acceptable_precondition (allowExists : bool) (value : PreconditionArg) : Prop :=
  exists exists_ lastUpdateTime,
    value = PreconditionObject exists_ lastUpdateTime /\
    exists_ <> WrongType /\ lastUpdateTime <> WrongType /\
    (exists_ = Undefined \/ lastUpdateTime = Undefined) /\
    (exists_ <> Undefined -> allowExists = true).

(** A key of a JavaScript object as [in] and [typeof] see it: not there,
    there with a value of the expected type, or there with another value
    ([undefined] included). *)
Inductive OwnProperty (A : Type) :=
| NoKey
| KeyOf (a : A)
| KeyOther.
Arguments NoKey {A}.
Arguments KeyOf {A} a.
Arguments KeyOther {A}.

Definition has_key {A} (p : OwnProperty A) : bool :=
  match p with
  | NoKey => false
  | _ => true
  end.

(** A value passed as the options of [set()]: something that is not an
    object, or an object with its [merge] key (a boolean) and its
    [mergeFields] key (an array, each element given by the verdict of
    [validateFieldPath] on it). *)
Inductive SetOptionsArg :=
| NotOptionsObject
| OptionsObject (merge : OwnProperty bool) (mergeFields : OwnProperty (list Check)).

(** [validateOptional] at the options argument. *)
Definition validateOptionalOptions (value : option SetOptionsArg) (optional : bool) : bool :=
  match value with
  | None => optional
  | Some _ => false
  end.

(** [for (const x of l) { f(x) }] *)
Fixpoint forEach {A} (f : A -> M unit) (l : list A) : M unit :=
  match l with
  | [] => mret tt
  | x :: rest => f x;; forEach f rest
  end.

(** [for (let i = 0; i < setOptions.mergeFields.length; ++i)] of
    [validateSetOptions], with its [try] and [catch]. *)
Definition validateMergeFields (arg : string) (mergeFields : list Check) : M unit :=
  forEach
    (fun field =>
       match field with
       | Some msg =>
           throw (InvalidArgument arg "set() options argument"
                    ("'mergeFields' is not valid: " +:+ msg))
       | None => mret tt
       end)
    mergeFields.

Definition validateSetOptions (arg : string) (value : option SetOptionsArg)
    (optional : bool) : M unit :=
  if negb (validateOptionalOptions value optional) then
    match value with
    | Some (OptionsObject merge mergeFields) =>
        (match merge with
         | KeyOther =>
             throw (InvalidArgument arg "set() options argument"
                      "'merge' is not a boolean.")
         | _ => mret tt
         end);;
        (match mergeFields with
         | NoKey => mret tt
         | KeyOther =>
             throw (InvalidArgument arg "set() options argument"
                      "'mergeFields' is not an array.")
         | KeyOf fields => validateMergeFields arg fields
         end);;
        if has_key merge && has_key mergeFields then
          throw (InvalidArgument arg "set() options argument"
                   "You cannot specify both 'merge' and 'mergeFields'.")
        else mret tt
    | _ =>
        throw (InvalidArgument arg "set() options argument" "Input is not an object.")
    end
  else mret tt.

(** [options && options.merge === true] and [options && options.mergeFields]
    of [set], for options that [validateSetOptions] let through: whether the
    call merges leaves, and whether it merges paths ([mergeFields] is then
    an array, which is truthy, empty or not). *)
Definition mergeLeavesOf (options : option SetOptionsArg) : bool :=
  match options with
  | Some (OptionsObject (KeyOf true) _) => true
  | _ => false
  end.

Definition mergePathsOf (options : option SetOptionsArg) : bool :=
  match options with
  | Some (OptionsObject _ (KeyOf _)) => true
  | _ => false
  end.

(** The options [validateSetOptions] lets through. *)
Definition acceptable_setOptions (value : option SetOptionsArg) (optional : bool) : Prop :=
  (value = None /\ optional = true) \/
  (exists merge, value = Some (OptionsObject merge NoKey) /\ merge <> KeyOther) \/
  (exists fields,
      value = Some (OptionsObject NoKey (KeyOf fields)) /\ Forall (fun f => f = None) fields).

(** The [allowDeletes] option of [validateUserInput]. *)
Inductive AllowDeletes := DeletesNone | DeletesRoot | DeletesAll.

Section UserInput.

(** The values of JavaScript and the validator of serializer.ts, which are
    not part of this file: [validateUserInput(arg, value, desc,
    {allowDeletes, allowTransforms}, path)] returns or throws
    [Error(msg)]; [customObjectMessage(arg, obj)] words the complaint about
    a value that is not a plain object. *)
Variable Value : Type.
Variable validateUserInput :
  string -> Value -> string -> AllowDeletes -> bool -> option FieldPath -> Check.
Variable customObjectMessage : string -> string.

(** An argument that should be a plain object: [None] when it is not one,
    else its own properties in the order of [Object.keys]. *)
Definition PlainObject := option (list (string * Value)).

Definition validateDocumentData (arg : string) (obj : PlainObject) (allowDeletes : bool)
  : M unit :=
  match obj with
  | None => throw (JsError (customObjectMessage arg))
  | Some props =>
      forEach
        (fun '(prop, value) =>
           check (validateUserInput arg value "Firestore document"
                    (if allowDeletes then DeletesAll else DeletesNone) true (Some [prop])))
        props
  end.

Definition validateFieldValue (arg : string) (val : Value) (path : option FieldPath)
  : M unit :=
  check (validateUserInput arg val "Firestore value" DeletesRoot true path).

Definition validateUpdateMap (arg : string) (obj : PlainObject) : M unit :=
  match obj with
  | None => throw (JsError (customObjectMessage arg))
  | Some props =>
      forEach (fun '(prop, value) => validateFieldValue arg value (Some [prop])) props;;
      let isEmpty := Nat.eqb (length props) 0 in
      if isEmpty then throw (JsError "At least one field must be updated.")
      else mret tt
  end.

End UserInput.

Arguments validateDocumentData {Value}.
Arguments validateFieldValue {Value}.
Arguments validateUpdateMap {Value}.

(** ** The alternating form of [update] *)

Section UpdateArguments.

(** What the loop over [arguments] calls and this file does not define:
    [validateFieldPath(arg, value)] (path.ts), as a verdict;
    [validateMinNumberOfArguments(funcName, args, minSize)] (validate.ts),
    as a verdict from the number of arguments; [FieldPath.fromArgument] at
    the argument of a given index, as the object it returns (a string
    gives a new object, a [FieldPath] gives itself) and its segments; and an
    argument as [validatePrecondition] and [new Precondition] read it. *)
Variable Value : Type.
Variable validateUserInput :
  string -> Value -> string -> AllowDeletes -> bool -> option FieldPath -> Check.
Variable validateFieldPath : string -> Value -> Check.
Variable validateMinNumberOfArguments : string -> nat -> nat -> Check.
Variable fromArgument : nat -> Value -> nat * FieldPath.
Variable asPrecondition : Value -> PreconditionArg.

(** [Map<FieldPath, unknown>]: the keys are [FieldPath] objects, compared by
    identity; the entries are kept in the order of their first insertion. *)
Definition UpdateMap := list (nat * FieldPath * Value).

(** [updateMap.set(fieldPath, value)] *)
Definition Map_set (fieldPath : nat * FieldPath) (value : Value) (updateMap : UpdateMap)
  : UpdateMap :=
  if decide (fieldPath.1 ∈ map (fun entry => entry.1.1) updateMap) then
    map (fun entry => if decide (entry.1.1 = fieldPath.1) then (entry.1, value) else entry)
      updateMap
  else updateMap ++ [(fieldPath, value)].

(** [for (let i = 1; i < arguments.length; i += 2)] of [update]: [argc] is
    [arguments.length] and [rest] holds [arguments[i]] and what follows it. *)
Fixpoint update_loop (argc : nat) (i : nat) (rest : list Value)
    (updateMap : UpdateMap) (precondition : Precondition) : M (UpdateMap * Precondition) :=
  match rest with
  | [] => mret (updateMap, precondition)
  | [last] =>
      validateUpdatePrecondition (pretty i) (asPrecondition last);;
      mret (updateMap, newPrecondition (Some (asPrecondition last)))
  | field :: value :: rest' =>
      check (validateFieldPath (pretty i) field);;
      check (validateMinNumberOfArguments "update" argc (i + 1));;
      let fieldPath := fromArgument i field in
      validateFieldValue validateUserInput (pretty i) value (Some fieldPath.2);;
      update_loop argc (i + 2) rest' (Map_set fieldPath value updateMap) precondition
  end.

(** The [usesVarargs] branch of [update], from the arguments that follow
    [documentRef]: the update map and the precondition it leaves. *)
Definition update_varargs (fieldsAndValues : list Value) : M (UpdateMap * Precondition) :=
  let updateMap := [] in
  let precondition := mkPrecondition (Some true) None in
  rethrow UpdateUsage
    (update_loop (S (length fieldsAndValues)) 1 fieldsAndValues updateMap precondition).

(** The arguments of [update(documentRef, field1, value1, field2, ...)]
    after [documentRef], from the pairs and what follows them. *)
Definition alternating (pairs : list (Value * Value)) (tail : list Value) : list Value :=
  flat_map (fun p => [p.1; p.2]) pairs ++ tail.

(** [updateMap.set(FieldPath.fromArgument(field), value)] for each pair, the
    first one being [arguments[i]] and [arguments[i + 1]]. *)
Fixpoint setAll (i : nat) (pairs : list (Value * Value)) (updateMap : UpdateMap) : UpdateMap :=
  match pairs with
  | [] => updateMap
  | p :: rest => setAll (i + 2) rest (Map_set (fromArgument i p.1) p.2 updateMap)
  end.

(** The pair at [arguments[i]] and [arguments[i + 1]] passes the validators
    of fields and values. *)
Definition valid_pair (i : nat) (p : Value * Value) : Prop :=
  validateFieldPath (pretty i) p.1 = None /\
  validateUserInput (pretty i) p.2 "Firestore value" DeletesRoot true
    (Some (fromArgument i p.1).2) = None.

(** All pairs pass, the first one being at [arguments[i]]. *)
Definition valid_pairs (i : nat) (pairs : list (Value * Value)) : Prop :=
  forall k p, pairs !! k = Some p -> valid_pair (i + 2 * k) p.

End UpdateArguments.

Arguments Map_set {Value}.
Arguments update_loop {Value}.
Arguments update_varargs {Value}.
Arguments alternating {Value}.
Arguments setAll {Value}.
Arguments valid_pair {Value}.
Arguments valid_pairs {Value}.

(** ** Sample arguments of the alternating form *)

(** Arguments that are strings, with validators that accept every value,
    every field name but the empty one, and a count of arguments that
    reaches the minimum; each field name gives a new [FieldPath] object of
    one segment, and no argument is an object. *)
Definition sample_validateUserInput
  : string -> string -> string -> AllowDeletes -> bool -> option FieldPath -> Check :=
  fun _ _ _ _ _ _ => None.

Definition sample_validateFieldPath (arg : string) (value : string) : Check :=
  if decide (value = EmptyString) then Some "Paths must not be empty." else None.

Definition sample_validateMinNumberOfArguments (funcName : string) (argc minSize : nat)
  : Check :=
  if (argc <? minSize)%nat then Some (funcName +:+ " requires more arguments.") else None.

Definition sample_fromArgument (i : nat) (value : string) : nat * FieldPath :=
  (i, [value]).

Definition sample_asPrecondition (value : string) : PreconditionArg := NotAnObject.

(** [create(doc, {foo: value})] *)
Definition sample_create (id value : string) : CreateCall :=
  mkCreateCall (sample_ref id) None None None None (sample_document id value) [].

(** [set(doc, {a: '1'}, {mergeFields: ['b']})]: the data has no value for
    the field to merge. *)
Definition sample_set_missing_merge_field (id : string) : SetCall :=
  mkSetCall (sample_ref id) None false (Some [["b"]]) None None None
    (Some "Input data is missing for field 'b'.") None
    (sample_document id "1") [] [] [["a"]].

(** * Properties *)

(** ** Computations that only look at the batch *)

Create HintDb inert.

Lemma inert_ret {A} (a : A) : inert (mret a).
Proof. intros b. left. by exists a. Qed.

Lemma inert_throw {A} (e : Exn) : inert (@throw A e).
Proof. intros b. right. by exists e. Qed.

Lemma inert_get : inert get.
Proof. intros b. left. by exists b. Qed.

Lemma inert_bind {A B} (m : M A) (k : A -> M B) :
  inert m -> (forall a, inert (k a)) -> inert (m ≫= k).
Proof.
  intros Hm Hk b. unfold mbind, M_bind, bind.
  destruct (Hm b) as [[a ->] | [e ->]].
  - destruct (Hk a b) as [[a' ->] | [e ->]]; [left | right]; eauto.
  - right; eauto.
Qed.

Lemma inert_check (c : Check) : inert (check c).
Proof. destruct c; [apply inert_throw | apply inert_ret]. Qed.

Lemma inert_assert (cond : bool) (msg : string) : inert (assert cond msg).
Proof. destruct cond; [apply inert_ret | apply inert_throw]. Qed.

Lemma inert_rethrow {A} (wrap : Exn -> Exn) (m : M A) : inert m -> inert (rethrow wrap m).
Proof.
  intros Hm b. unfold rethrow.
  destruct (Hm b) as [[a ->] | [e ->]]; [left | right]; eauto.
Qed.

#[global] Hint Resolve inert_ret inert_throw inert_get inert_check inert_assert : inert.

Ltac inert_steps :=
  repeat first
    [ apply inert_bind; [ | intros ? ]
    | apply inert_rethrow
    | progress auto with inert
    | match goal with
      | |- inert (if ?c then _ else _) => destruct c
      | |- inert (match ?x with _ => _ end) => destruct x
      end ].

Lemma inert_verifyNotCommitted : inert verifyNotCommitted.
Proof. unfold verifyNotCommitted. inert_steps. Qed.

Lemma inert_validatePrecondition arg value allowExists :
  inert (validatePrecondition arg value allowExists).
Proof. unfold validatePrecondition. inert_steps. Qed.

Lemma inert_validateUpdatePrecondition arg value :
  inert (validateUpdatePrecondition arg value).
Proof.
  unfold validateUpdatePrecondition.
  destruct (negb _); [apply inert_validatePrecondition | apply inert_ret].
Qed.

Lemma inert_validateDeletePrecondition arg value optional :
  inert (validateDeletePrecondition arg value optional).
Proof.
  unfold validateDeletePrecondition.
  destruct (negb _); [apply inert_validatePrecondition | apply inert_ret].
Qed.

Lemma inert_validateNoConflictingFields arg data :
  inert (validateNoConflictingFields arg data).
Proof. unfold validateNoConflictingFields. inert_steps. Qed.

#[global] Hint Resolve inert_verifyNotCommitted inert_validatePrecondition
  inert_validateUpdatePrecondition inert_validateDeletePrecondition
  inert_validateNoConflictingFields : inert.

(** An inert prefix in front of a continuation that always throws without
    effect: the whole throws without effect. *)
Lemma inert_then_throws {A B} (m : M A) (k : A -> M B) b :
  inert m ->
  (forall a, exists e, k a b = (b, [], Throw e)) ->
  exists e, (m ≫= k) b = (b, [], Throw e).
Proof.
  intros Hm Hk. unfold mbind, M_bind, bind.
  destruct (Hm b) as [[a ->] | [e ->]]; [ | eauto ].
  destruct (Hk a) as [e ->]. eauto.
Qed.

(** A throwing step in front of anything. *)
Lemma throws_then {A B} (m : M A) (k : A -> M B) b e :
  m b = (b, [], Throw e) -> (m ≫= k) b = (b, [], Throw e).
Proof. intros H. unfold mbind, M_bind, bind. by rewrite H. Qed.

(** A step that returns without effect in front of a continuation. *)
Lemma returns_then {A B} (m : M A) (k : A -> M B) b a :
  m b = (b, [], Ok a) -> (m ≫= k) b = k a b.
Proof.
  intros H. unfold mbind, M_bind, bind. rewrite H.
  by destruct (k a b) as [[b2 tr2] r].
Qed.

(** ** The order on field paths *)

Section PathOrder.

Lemma ascii_compare_refl (a : ascii) : Ascii.compare a a = Eq.
Proof. unfold Ascii.compare. apply N.compare_refl. Qed.

Lemma ascii_compare_lt_trans (a b c : ascii) :
  Ascii.compare a b = Lt -> Ascii.compare b c = Lt -> Ascii.compare a c = Lt.
Proof.
  unfold Ascii.compare. rewrite !N.compare_lt_iff. apply N.lt_trans.
Qed.

Lemma string_compare_refl (s : string) : String.compare s s = Eq.
Proof. induction s as [ | a s IH]; simpl; [done | ]. by rewrite ascii_compare_refl. Qed.

Lemma string_compare_lt_trans (s1 s2 s3 : string) :
  String.compare s1 s2 = Lt -> String.compare s2 s3 = Lt -> String.compare s1 s3 = Lt.
Proof.
  revert s2 s3. induction s1 as [ | a s1 IH]; intros [ | b s2] [ | c s3]; simpl; try done.
  destruct (Ascii.compare a b) eqn:Hab; try done;
    destruct (Ascii.compare b c) eqn:Hbc; try done; intros H1 H2.
  - apply Ascii.compare_eq_iff in Hab, Hbc. subst. rewrite ascii_compare_refl. eauto.
  - apply Ascii.compare_eq_iff in Hab. subst. by rewrite Hbc.
  - apply Ascii.compare_eq_iff in Hbc. subst. by rewrite Hab.
  - by rewrite (ascii_compare_lt_trans _ _ _ Hab Hbc).
Qed.

Lemma compareTo_refl (p : FieldPath) : compareTo p p = Eq.
Proof. induction p as [ | x p IH]; simpl; [done | ]. by rewrite string_compare_refl. Qed.

Lemma compareTo_eq (p q : FieldPath) : compareTo p q = Eq -> p = q.
Proof.
  revert q. induction p as [ | x p IH]; intros [ | y q]; simpl; try done.
  destruct (String.compare x y) eqn:Hxy; try done.
  intros H. apply String.compare_eq_iff in Hxy. f_equal; auto.
Qed.

Lemma compareTo_antisym (p q : FieldPath) : compareTo p q = CompOpp (compareTo q p).
Proof.
  revert q. induction p as [ | x p IH]; intros [ | y q]; simpl; try done.
  rewrite String.compare_antisym. destruct (String.compare y x); simpl; auto.
Qed.

Lemma compareTo_lt_trans (p q r : FieldPath) :
  compareTo p q = Lt -> compareTo q r = Lt -> compareTo p r = Lt.
Proof.
  revert q r. induction p as [ | x p IH]; intros [ | y q] [ | z r]; simpl; try done.
  destruct (String.compare x y) eqn:Hxy; try done;
    destruct (String.compare y z) eqn:Hyz; try done; intros H1 H2.
  - apply String.compare_eq_iff in Hxy, Hyz. subst. rewrite string_compare_refl. eauto.
  - apply String.compare_eq_iff in Hxy. subst. by rewrite Hyz.
  - apply String.compare_eq_iff in Hyz. subst. by rewrite Hxy.
  - by rewrite (string_compare_lt_trans _ _ _ Hxy Hyz).
Qed.

#[global] Instance path_le_refl : Reflexive path_le.
Proof. intros p. unfold path_le. by rewrite compareTo_refl. Qed.

#[global] Instance path_le_trans : Transitive path_le.
Proof.
  intros p q r. unfold path_le.
  destruct (compareTo p q) eqn:Hpq; try done; intros _.
  - apply compareTo_eq in Hpq. by subst.
  - destruct (compareTo q r) eqn:Hqr; try done; intros _.
    + apply compareTo_eq in Hqr. subst. by rewrite Hpq.
    + by rewrite (compareTo_lt_trans _ _ _ Hpq Hqr).
Qed.

#[global] Instance path_le_total : Total path_le.
Proof.
  intros p q. unfold path_le. rewrite (compareTo_antisym q p).
  destruct (compareTo p q); simpl; auto.
Qed.

Lemma path_le_antisym (p q : FieldPath) : path_le p q -> path_le q p -> p = q.
Proof.
  unfold path_le. rewrite (compareTo_antisym q p).
  destruct (compareTo p q) eqn:H; simpl; try done. intros _ _. by apply compareTo_eq.
Qed.

Lemma isPrefixOf_refl (p : FieldPath) : isPrefixOf p p = true.
Proof. induction p as [ | x p IH]; simpl; [done | ]. by rewrite String.eqb_refl. Qed.

Lemma isPrefixOf_le (p q : FieldPath) : isPrefixOf p q = true -> path_le p q.
Proof.
  revert q. unfold path_le. induction p as [ | x p IH]; intros [ | y q]; simpl; try done.
  intros [Hxy Hpq]%andb_prop. apply String.eqb_eq in Hxy. subst.
  rewrite string_compare_refl. auto.
Qed.

(** The paths a given path is a prefix of form an interval of the order. *)
Lemma isPrefixOf_between (p r q : FieldPath) :
  path_le p r -> path_le r q -> isPrefixOf p q = true -> isPrefixOf p r = true.
Proof.
  revert r q. unfold path_le.
  induction p as [ | x p IH]; intros [ | z r] [ | y q]; simpl; try done.
  intros Hpr Hrq [Hxy Hpq]%andb_prop. apply String.eqb_eq in Hxy. subst y.
  rewrite (String.compare_antisym z x) in Hrq.
  destruct (String.compare x z) eqn:Hxz; simpl in *; try done.
  apply String.compare_eq_iff in Hxz. subst z.
  rewrite String.eqb_refl. simpl. eauto.
Qed.

End PathOrder.

(** ** Conflicting fields *)

(** In a sorted array a prefix pair shows up as an adjacent prefix pair. *)
Lemma firstConflict_sorted_ordered (l1 l2 l3 : list FieldPath) (p q : FieldPath) :
  StronglySorted path_le (l1 ++ p :: l2 ++ q :: l3) ->
  isPrefixOf p q = true ->
  is_Some (firstConflict (l1 ++ p :: l2 ++ q :: l3)).
Proof.
  intros Hs Hpq. induction l1 as [ | a l1 IH].
  - simpl in *. apply StronglySorted_inv in Hs as [Hs Hall].
    destruct l2 as [ | r l2]; simpl in *.
    + rewrite Hpq. eauto.
    + apply Forall_cons in Hall as [Hpr _].
      apply StronglySorted_inv in Hs as [_ Hall].
      assert (Hrq : path_le r q).
      { rewrite Forall_forall in Hall. apply Hall. set_solver. }
      rewrite (isPrefixOf_between p r q Hpr Hrq Hpq). eauto.
  - apply StronglySorted_inv in Hs as [Hs _]. specialize (IH Hs).
    change ((a :: l1) ++ p :: l2 ++ q :: l3) with (a :: (l1 ++ p :: l2 ++ q :: l3)).
    destruct (l1 ++ p :: l2 ++ q :: l3) as [ | b rest] eqn:Hrest.
    + by destruct l1.
    + simpl. destruct (isPrefixOf a b); eauto.
Qed.

Lemma firstConflict_sorted (fields : list FieldPath) :
  StronglySorted path_le fields -> conflicting fields -> is_Some (firstConflict fields).
Proof.
  intros Hs (l1 & p & l2 & q & l3 & -> & [Hpq | Hqp]).
  - by apply firstConflict_sorted_ordered.
  - assert (Hle : path_le p q).
    { pose proof (StronglySorted_app_1_r _ _ _ Hs) as Hr.
      apply StronglySorted_inv in Hr as [_ Hall].
      rewrite Forall_forall in Hall. apply Hall. set_solver. }
    pose proof (path_le_antisym p q Hle (isPrefixOf_le q p Hqp)) as ->.
    by apply firstConflict_sorted_ordered.
Qed.

(** Sorting keeps a prefix pair a prefix pair. *)
Lemma conflicting_Permutation (l l' : list FieldPath) :
  l ≡ₚ l' -> conflicting l -> conflicting l'.
Proof.
  intros Hperm (l1 & p & l2 & q & l3 & -> & Hpq).
  assert (Hp : p ∈ l').
  { rewrite <- Hperm, elem_of_app, elem_of_cons. auto. }
  apply list_elem_of_split in Hp as (s1 & s2 & ->).
  assert (Hrest : l1 ++ l2 ++ q :: l3 ≡ₚ s1 ++ s2).
  { apply (Permutation_app_inv l1 (l2 ++ q :: l3) s1 s2 p). exact Hperm. }
  assert (Hq : q ∈ s1 ++ s2).
  { rewrite <- Hrest, !elem_of_app, elem_of_cons. auto. }
  apply elem_of_app in Hq as [Hq | Hq];
    apply list_elem_of_split in Hq as (t1 & t2 & ->).
  - exists t1, q, t2, p, s2. split; [by rewrite <- app_assoc | tauto].
  - exists s1, p, t1, q, t2. split; [done | tauto].
Qed.

Lemma validateNoConflictingFields_throws arg (data : list (FieldPath * string)) b :
  conflicting (map fst data) ->
  exists field, validateNoConflictingFields arg data b = (b, [], Throw (FieldConflict arg field)).
Proof.
  intros Hc. unfold validateNoConflictingFields.
  assert (Hs : is_Some (firstConflict (merge_sort path_le (map fst data)))).
  { apply firstConflict_sorted.
    - apply StronglySorted_merge_sort; apply _.
    - eapply conflicting_Permutation; [ | exact Hc ].
      symmetry. apply merge_sort_Permutation. }
  destruct Hs as [field ->]. by exists field.
Qed.

(** ** update: conflicting field paths *)

(** C8: an [update] whose update map holds two field paths one of which is a
    prefix of the other throws at the call, and the batch it was called on
    is left exactly as it was: same producers, same document paths, same
    result slots, same state (and nothing is put on the wire). *)
Theorem update_conflicting_fields_rejected (c : UpdateCall) (b : UpdateBuilder) :
  conflicting (map fst (up_updateMap c)) ->
  exists e, update c b = (b, [], Throw e).
Proof.
  intros Hc. unfold update.
  apply inert_then_throws; [auto with inert | intros _].
  apply inert_then_throws; [auto with inert | intros _].
  apply inert_then_throws; [auto with inert | intros _].
  apply inert_then_throws; [inert_steps | intros precondition].
  destruct (validateNoConflictingFields_throws "dataOrField" _ b Hc) as [field Hf].
  exists (FieldConflict "dataOrField" field). by apply throws_then.
Qed.

Lemma update_conflicting_fields_rejected_witness :
  conflicting (map fst (up_updateMap sample_update_a_and_a_b)) /\
  exists e,
    update sample_update_a_and_a_b (newBatch MAX_BATCH_SIZE)
    = (newBatch MAX_BATCH_SIZE, [], Throw e).
Proof.
  assert (H : conflicting (map fst (up_updateMap sample_update_a_and_a_b))).
  { exists [], ["a"], [], ["a"; "b"], []. split; [reflexivity | left; reflexivity]. }
  split; [exact H | ].
  exact (update_conflicting_fields_rejected sample_update_a_and_a_b
           (newBatch MAX_BATCH_SIZE) H).
Defined.

(** ** Appending to a batch *)

Lemma verifyNotCommitted_committed b :
  _committed b = true -> verifyNotCommitted b = (b, [], Throw (JsError committed_message)).
Proof. intros H. unfold verifyNotCommitted, mbind, M_bind, bind, get. simpl. by rewrite H. Qed.

Lemma verifyNotCommitted_open b :
  _committed b = false -> verifyNotCommitted b = (b, [], Ok tt).
Proof. intros H. unfold verifyNotCommitted, mbind, M_bind, bind, get. simpl. by rewrite H. Qed.

(** Whatever the arguments, a call on a committed batch throws and leaves
    the batch alone. *)
Lemma append_committed_throws (op : WriteCall) b :
  _committed b = true -> exists e, append op b = (b, [], Throw e).
Proof.
  intros Hc. pose proof (verifyNotCommitted_committed b Hc) as Hv.
  destruct op as [c | c | c | c]; simpl.
  - unfold create.
    apply inert_then_throws; [auto with inert | intros _].
    apply inert_then_throws; [auto with inert | intros _].
    apply inert_then_throws; [auto with inert | intros _].
    eexists. by apply throws_then.
  - unfold set.
    apply inert_then_throws; [auto with inert | intros _].
    apply inert_then_throws; [auto with inert | intros _].
    apply inert_then_throws; [auto with inert | intros _].
    apply inert_then_throws; [auto with inert | intros _].
    eexists. by apply throws_then.
  - unfold update.
    apply inert_then_throws; [auto with inert | intros _].
    apply inert_then_throws; [auto with inert | intros _].
    eexists. by apply throws_then.
  - unfold delete.
    apply inert_then_throws; [auto with inert | intros _].
    apply inert_then_throws; [auto with inert | intros _].
    eexists. by apply throws_then.
Qed.

(** With valid arguments the error on a committed batch is the one of
    [verifyNotCommitted]. *)
Lemma append_committed (op : WriteCall) b :
  validates op -> _committed b = true ->
  append op b = (b, [], Throw (JsError committed_message)).
Proof.
  intros Hv Hc. pose proof (verifyNotCommitted_committed b Hc) as Hn.
  destruct op as [c | c | c | c]; simpl in *.
  - destruct Hv as (H1 & H2 & H3 & H4). unfold create. rewrite H1, H2, H3.
    do 3 (rewrite (returns_then _ _ b tt) by done).
    by apply throws_then.
  - destruct Hv as (H1 & H2 & H3 & H4 & _). unfold set. rewrite H1, H2, H3, H4.
    do 4 (rewrite (returns_then _ _ b tt) by done).
    by apply throws_then.
  - destruct Hv as (H1 & H2 & _). unfold update. rewrite H1, H2.
    do 2 (rewrite (returns_then _ _ b tt) by done).
    by apply throws_then.
  - destruct Hv as (H1 & H2). unfold delete. rewrite H1.
    rewrite (returns_then _ _ b tt) by done.
    rewrite (returns_then _ _ b tt) by apply H2.
    by apply throws_then.
Qed.

(** With valid arguments on a batch that is not committed, a call pushes its
    producer and then runs [processOperation]. *)
Lemma append_validated (op : WriteCall) b :
  validates op -> _committed b = false ->
  append op b = processOperation (documentRef op) (push_op (producer op) b).
Proof.
  intros Hv Hc. pose proof (verifyNotCommitted_open b Hc) as Hn.
  assert (Hpush : forall (p : unit -> WriteOp) d,
    (modify (push_op p) ≫= (fun _ => processOperation d)) b
    = processOperation d (push_op p b)).
  { intros p d. unfold mbind, M_bind, bind, modify.
    by destruct (processOperation d (push_op p b)) as [[b2 tr2] r]. }
  destruct op as [c | c | c | c]; simpl in *.
  - destruct Hv as (H1 & H2 & H3 & H4). unfold create. rewrite H1, H2, H3, H4.
    do 3 (rewrite (returns_then _ _ b tt) by done).
    rewrite (returns_then _ _ b tt) by exact Hn.
    rewrite (returns_then _ _ b tt) by done.
    apply Hpush.
  - destruct Hv as (H1 & H2 & H3 & H4 & H5 & H6). unfold set.
    rewrite H1, H2, H3, H4, H6.
    do 4 (rewrite (returns_then _ _ b tt) by done).
    rewrite (returns_then _ _ b tt) by exact Hn.
    rewrite (returns_then _ _ b tt)
      by (destruct (truthy (se_mergePaths c)); [by rewrite H5 | done]).
    rewrite (returns_then _ _ b tt) by done.
    apply Hpush.
  - destruct Hv as (H1 & H2 & H3 & H4 & H5 & H6). unfold update.
    rewrite H1, H2, H3, H6.
    do 2 (rewrite (returns_then _ _ b tt) by done).
    rewrite (returns_then _ _ b tt) by exact Hn.
    rewrite (returns_then _ _ b (update_precondition c)).
    + rewrite (returns_then _ _ b tt) by apply H5.
      rewrite (returns_then _ _ b tt) by done.
      apply Hpush.
    + unfold rethrow, update_precondition.
      rewrite (returns_then _ _ b tt) by done.
      destruct (up_precondition c) as [value | ]; [ | done].
      rewrite (returns_then _ _ b tt) by apply H4. done.
  - destruct Hv as (H1 & H2). unfold delete. rewrite H1.
    rewrite (returns_then _ _ b tt) by done.
    rewrite (returns_then _ _ b tt) by apply H2.
    rewrite (returns_then _ _ b tt) by exact Hn.
    apply Hpush.
Qed.

Lemma processOperation_duplicate d b :
  path d ∈ docPaths b ->
  processOperation d b = (b, [], Throw (AssertionError duplicate_message)).
Proof.
  intros Hin. unfold processOperation, mbind, M_bind, bind, get. simpl.
  by rewrite (bool_decide_eq_true_2 _ Hin).
Qed.

Lemma processOperation_not_open d b :
  path d ∉ docPaths b -> state b <> OPEN ->
  processOperation d b = (b, [], Throw (AssertionError not_open_message)).
Proof.
  intros Hin Hst. unfold processOperation, mbind, M_bind, bind, get. simpl.
  rewrite (bool_decide_eq_false_2 _ Hin). simpl.
  by destruct (state b).
Qed.

Lemma processOperation_open d b :
  path d ∉ docPaths b -> state b = OPEN ->
  processOperation d b = (recorded d b, [], Ok (opCount b)).
Proof.
  intros Hin Hst. unfold processOperation, mbind, M_bind, bind, get. simpl.
  rewrite (bool_decide_eq_false_2 _ Hin), Hst. simpl.
  unfold recorded, opCount. simpl.
  destruct (Z.of_nat (size (<[size (resultsMap b):=None]> (resultsMap b))) =? maxBatchSize b);
    unfold set_state, set_resultsMap, set_docPaths; simpl; by rewrite ?Hst.
Qed.

(** C5, as the code has it: with valid arguments (every validator returns,
    and so do the converter of a [create] or [set] and, when a [set] merges
    fields, the mask applied to its data), a call on a batch whose
    committed flag is set throws the already-committed error and leaves the
    batch as it was; on a batch that is not committed it throws the
    duplicate-document assertion when the path is already in [docPaths], and
    the batch-not-open assertion when the path is new and the state is not
    OPEN; after either assertion the document paths, the result slots, the
    state and the committed flag are the ones from before the call. *)
Theorem append_failures (op : WriteCall) (b : UpdateBuilder) :
  validates op ->
  (_committed b = true ->
     append op b = (b, [], Throw (JsError committed_message))) /\
  (_committed b = false ->
     (path (documentRef op) ∈ docPaths b ->
        outcome_of (append op b) = Throw (AssertionError duplicate_message)) /\
     (path (documentRef op) ∉ docPaths b -> state b <> OPEN ->
        outcome_of (append op b) = Throw (AssertionError not_open_message)) /\
     (path (documentRef op) ∈ docPaths b \/ state b <> OPEN ->
        let b' := batch_of (append op b) in
        docPaths b' = docPaths b /\ resultsMap b' = resultsMap b /\
        state b' = state b /\ _committed b' = false)).
Proof.
  intros Hv. split; [by apply append_committed | ].
  intros Hc. rewrite (append_validated op b Hv Hc).
  split; [ | split].
  - intros Hin. by rewrite processOperation_duplicate.
  - intros Hin Hst. by rewrite processOperation_not_open.
  - intros Hcase.
    destruct (decide (path (documentRef op) ∈ docPaths b)) as [Hin | Hin].
    + by rewrite processOperation_duplicate.
    + destruct Hcase as [? | Hst]; [done | ].
      by rewrite processOperation_not_open.
Qed.

Lemma append_failures_witness :
  let op := Set_ (sample_set "doc" "bar") in
  let b := batch_of (append op (newBatch MAX_BATCH_SIZE)) in
  validates op /\ _committed b = false /\ path (documentRef op) ∈ docPaths b /\
  outcome_of (append op b) = Throw (AssertionError duplicate_message) /\
  docPaths (batch_of (append op b)) = docPaths b.
Proof.
  intros op b.
  assert (Hv : validates op) by (repeat split; reflexivity).
  assert (Hc : _committed b = false) by reflexivity.
  assert (Hin : path (documentRef op) ∈ docPaths b) by (vm_compute; set_solver).
  pose proof (append_failures op b Hv) as [_ Hopen].
  destruct (Hopen Hc) as (Hdup & _ & Hframe).
  split; [exact Hv | ]. split; [exact Hc | ]. split; [exact Hin | ].
  split; [exact (Hdup Hin) | ].
  exact (proj1 (Hframe (or_introl Hin))).
Defined.

(** C5 as stated fails: on a batch that was marked ready to send (and never
    committed) a [set] throws the batch-not-open assertion, not the
    already-committed error, and its producer is on the operation list when
    the call has thrown. *)
Lemma append_not_open_counterexample :
  let b := batch_of (markReadyToSend (newBatch MAX_BATCH_SIZE)) in
  let r := append (Set_ (sample_set "doc" "bar")) b in
  state b = READY_TO_SEND /\ _committed b = false /\
  outcome_of r = Throw (AssertionError not_open_message) /\
  outcome_of r <> Throw (JsError committed_message) /\
  length (_ops b) = 0%nat /\ length (_ops (batch_of r)) = 1%nat.
Proof. vm_compute. repeat split. discriminate. Qed.

(** ** Serialisation at commit time *)

Lemma mapM_invoke (ops : list (unit -> WriteOp)) b :
  mapM invoke ops b = (b, map (fun op => Produced (run op)) ops, Ok (map run ops)).
Proof.
  induction ops as [ | op ops IH]; [done | ].
  simpl. unfold mbind, M_bind, bind in *. simpl. rewrite IH. simpl.
  by rewrite app_nil_r.
Qed.

Lemma map_attach_run (ops : list (unit -> WriteOp)) : map attach (map run ops) = map wire ops.
Proof. by rewrite map_map. Qed.

Lemma bulkCommit_unfold (fs : Firestore) b :
  bulkCommit fs b =
  match initializeIfNeeded fs with
  | Ok _ =>
      (set_committed true b, produced b ++ [BatchWriteRpc (bulkRequest fs b)],
       match request_batchWrite fs (bulkRequest fs b) with
       | Ok response =>
           bulkResults (default [] (bw_writeResults response)) (bw_status response) 0
       | Throw e => Throw e
       | OutOfFuel => OutOfFuel
       end)
  | Throw e => (set_committed true b, [], Throw e)
  | OutOfFuel => (set_committed true b, [], OutOfFuel)
  end.
Proof.
  unfold bulkCommit, mbind, M_bind, bind, modify, lift, get, emit. simpl.
  destruct (initializeIfNeeded fs) as [[] | e | ]; try done.
  rewrite mapM_invoke. simpl. rewrite map_attach_run.
  unfold bulkRequest, produced. simpl.
  destruct (request_batchWrite fs _) as [response | e | ]; simpl;
    by rewrite ?app_nil_r.
Qed.

Lemma commit_direct (fuel : nat) (fs : Firestore) commitOptions b :
  initializeIfNeeded fs = Ok tt ->
  negb (truthy (explicitTransaction commitOptions)) && _shouldCreateTransaction fs = false ->
  commit_ (S fuel) fs commitOptions b
  = commit_send fs (explicitTransaction commitOptions) b.
Proof.
  intros Hinit Hdirect. unfold explicitTransaction in *. simpl.
  unfold mbind at 1 2, M_bind at 1 2, bind at 1 2, modify, lift. simpl.
  rewrite Hinit. simpl.
  change (option_bind CommitOptions (list Byte.byte) transactionId commitOptions)
    with (commitOptions ≫= transactionId).
  rewrite Hdirect.
  unfold mbind, M_bind, bind, get, emit, lift. simpl.
  rewrite mapM_invoke. simpl. rewrite map_attach_run.
  unfold commit_send, commitRequest, produced. simpl.
  destruct (request_commit fs _) as [response | e | ]; simpl;
    by rewrite ?app_nil_r.
Qed.

Lemma set_committed_twice c b : set_committed c (set_committed c b) = set_committed c b.
Proof. done. Qed.

Lemma commit_transactional (fuel : nat) (fs : Firestore) commitOptions b :
  initializeIfNeeded fs = Ok tt ->
  explicitTransaction commitOptions = None ->
  _shouldCreateTransaction fs = true ->
  commit_ (S (S fuel)) fs commitOptions b =
  match request_beginTransaction fs with
  | Ok resp =>
      (set_committed true b,
       BeginTransactionRpc (fs_formattedName fs)
         :: events_of (commit_send fs (Some (transaction resp)) b),
       outcome_of (commit_send fs (Some (transaction resp)) b))
  | Throw e => (set_committed true b, [BeginTransactionRpc (fs_formattedName fs)], Throw e)
  | OutOfFuel => (set_committed true b, [BeginTransactionRpc (fs_formattedName fs)], OutOfFuel)
  end.
Proof.
  intros Hinit Hnone Hshould. unfold explicitTransaction in *.
  remember (S fuel) as n eqn:Hn. simpl.
  unfold mbind at 1 2, M_bind at 1 2, bind at 1 2, modify, lift. simpl.
  rewrite Hinit. simpl.
  change (option_bind CommitOptions (list Byte.byte) transactionId commitOptions)
    with (commitOptions ≫= transactionId).
  rewrite Hnone, Hshould. simpl.
  unfold mbind at 1 2, M_bind at 1 2, bind at 1 2, emit, lift. simpl.
  destruct (request_beginTransaction fs) as [resp | e | ]; try done.
  subst n.
  rewrite (commit_direct fuel fs (Some (mkCommitOptions (Some (transaction resp)) None))
             (set_committed true b) Hinit eq_refl).
  done.
Qed.

(** ** Transactional commits *)

Lemma rpcs_produced b : rpcs (produced b) = [].
Proof. unfold produced, rpcs. by induction (_ops b). Qed.

Lemma rpcs_commit_send fs tx b :
  rpcs (events_of (commit_send fs tx b)) = [CommitRpc (commitRequest fs tx b)].
Proof.
  unfold commit_send, events_of, rpcs. simpl.
  rewrite List.filter_app. fold (rpcs (produced b)). by rewrite rpcs_produced.
Qed.

Lemma _shouldCreateTransaction_idle fs : _shouldCreateTransaction fs = idle fs.
Proof.
  unfold _shouldCreateTransaction, idle, lastSuccessfulRequestMillis, truthy_number.
  destruct (_preferTransactions fs); [ | done].
  destruct (_lastSuccessfulRequest fs) as [[ | millis | millis] | ]; simpl;
    try done; apply Z.gtb_ltb.
Qed.

(** C2: a [commit_] without a transaction id first issues [beginTransaction]
    exactly when transactions are preferred and the client is idle
    ([_lastSuccessfulRequest] unset, which for the code is [undefined] or 0,
    or more than 110000 ms before now); the commit RPC then follows and
    carries the returned id.  Otherwise, and whenever an id is supplied, the
    commit RPC is the only RPC, carrying the supplied id if any. *)
Theorem commit_begins_transaction_when_idle (fuel : nat) (fs : Firestore)
    (commitOptions : option CommitOptions) (b : UpdateBuilder) :
  initializeIfNeeded fs = Ok tt ->
  let sent := rpcs (events_of (commit_ (S (S fuel)) fs commitOptions b)) in
  let begin := BeginTransactionRpc (fs_formattedName fs) in
  match explicitTransaction commitOptions with
  | Some id => sent = [CommitRpc (commitRequest fs (Some id) b)]
  | None =>
      (begin ∈ sent <-> idle fs = true) /\
      if idle fs then
        match request_beginTransaction fs with
        | Ok resp =>
            sent = [begin; CommitRpc (commitRequest fs (Some (transaction resp)) b)]
        | _ => sent = [begin]
        end
      else sent = [CommitRpc (commitRequest fs None b)]
  end.
Proof.
  intros Hinit sent begin. subst sent.
  destruct (explicitTransaction commitOptions) as [id | ] eqn:Hexp.
  - rewrite commit_direct by (by rewrite ?Hexp).
    by rewrite Hexp, rpcs_commit_send.
  - destruct (idle fs) eqn:Hidle.
    + rewrite commit_transactional by (by rewrite ?_shouldCreateTransaction_idle).
      assert (Hhead : forall l : list Event, begin ∈ begin :: l) by (intros; left).
      destruct (request_beginTransaction fs) as [resp | e | ]; simpl.
      * unfold events_of at 1. simpl. fold (rpcs (events_of
          (commit_send fs (Some (transaction resp)) b))).
        rewrite rpcs_commit_send. split; [ | done]. split; [done | intros _; apply Hhead].
      * split; [ | done]. split; [done | intros _; apply Hhead].
      * split; [ | done]. split; [done | intros _; apply Hhead].
    + rewrite commit_direct
        by (by rewrite ?Hexp, ?_shouldCreateTransaction_idle, ?Hidle).
      rewrite Hexp, rpcs_commit_send. split; [ | done].
      split; [ | done]. intros Hin. apply list_elem_of_singleton in Hin. discriminate.
Qed.

Lemma commit_begins_transaction_when_idle_witness :
  initializeIfNeeded sample_idle_firestore = Ok tt /\
  idle sample_idle_firestore = true /\
  rpcs (events_of (commit_ 2 sample_idle_firestore None sample_batch))
  = [BeginTransactionRpc sample_database;
     CommitRpc (commitRequest sample_idle_firestore (Some [Byte.x2a]) sample_batch)].
Proof.
  split; [reflexivity | ]. split; [reflexivity | ].
  exact (proj2 (commit_begins_transaction_when_idle 0 sample_idle_firestore None
                  sample_batch eq_refl)).
Defined.

(** ** Results of a commit *)

Lemma commitResults_ok (results : list IWriteResult) (ct : ITimestamp) :
  commitResults results (Some ct) = Ok (map (commitResultOf ct) results).
Proof.
  induction results as [ | wr results IH]; [done | ].
  simpl. rewrite IH. unfold commitResultOf. by destruct (updateTime wr).
Qed.

(** Whichever way [commit_] takes, its outcome is the one of the commit RPC
    it ends with. *)
Lemma commit_outcome (fuel : nat) (fs : Firestore) commitOptions b resp :
  initializeIfNeeded fs = Ok tt ->
  request_beginTransaction fs = Ok resp ->
  exists tx,
    batch_of (commit_ (S (S fuel)) fs commitOptions b) = set_committed true b /\
    outcome_of (commit_ (S (S fuel)) fs commitOptions b)
    = outcome_of (commit_send fs tx b).
Proof.
  intros Hinit Hbegin.
  destruct (negb (truthy (explicitTransaction commitOptions)) && _shouldCreateTransaction fs)
    eqn:Hcase.
  - apply andb_prop in Hcase as [Hnone Hshould].
    destruct (explicitTransaction commitOptions) eqn:Hexp; [done | ].
    exists (Some (transaction resp)).
    rewrite commit_transactional by done. by rewrite Hbegin.
  - exists (explicitTransaction commitOptions). by rewrite commit_direct.
Qed.

(** C4: when the commit RPC answers with a commit time, [commit_] resolves
    with one write result per entry of [writeResults], the i-th carrying
    [writeResults[i].updateTime] when that is present and the commit time
    otherwise; when the commit RPC fails, [commit_] as a whole rejects with
    that error: no operation gets a result, and no result slot of the batch
    is touched. *)
Theorem commit_mode_results (fuel : nat) (fs : Firestore)
    (commitOptions : option CommitOptions) (b : UpdateBuilder)
    (resp : BeginTransactionResponse) :
  initializeIfNeeded fs = Ok tt ->
  request_beginTransaction fs = Ok resp ->
  let r := commit_ (S (S fuel)) fs commitOptions b in
  (forall response ct,
      (forall req, request_commit fs req = Ok response) ->
      commitTime response = Some ct ->
      exists results,
        outcome_of r = Ok results /\
        length results = length (default [] (cm_writeResults response)) /\
        forall i writeResult,
          default [] (cm_writeResults response) !! i = Some writeResult ->
          results !! i =
          Some (mkWriteResult
                  (match updateTime writeResult with
                   | Some t => Timestamp_fromProto t
                   | None => Timestamp_fromProto ct
                   end))) /\
  (forall e,
      (forall req, request_commit fs req = Throw e) ->
      outcome_of r = Throw e /\ resultsMap (batch_of r) = resultsMap b).
Proof.
  intros Hinit Hbegin r. subst r.
  destruct (commit_outcome fuel fs commitOptions b resp Hinit Hbegin) as (tx & Hb & Ho).
  rewrite Ho, Hb. unfold commit_send, outcome_of. simpl. split.
  - intros response ct Hresp Hct. rewrite Hresp, Hct, commitResults_ok.
    eexists. split; [done | ]. split; [by rewrite length_map | ].
    intros i wr Hi. rewrite list_lookup_fmap, Hi. simpl.
    unfold commitResultOf. by destruct (updateTime wr).
  - intros e Hfail. by rewrite Hfail.
Qed.

Lemma commit_mode_results_witness :
  let fs := sample_idle_firestore in
  initializeIfNeeded fs = Ok tt /\
  request_beginTransaction fs = Ok (mkBeginTransactionResponse [Byte.x2a]) /\
  (forall req, request_commit fs req = Ok sample_commit_response) /\
  commitTime sample_commit_response = Some (mkITimestamp 7 0) /\
  exists results,
    outcome_of (commit_ 2 fs None sample_batch_of_two) = Ok results /\
    results !! 0%nat = Some (mkWriteResult (mkTimestamp 7 0)) /\
    results !! 1%nat = Some (mkWriteResult (mkTimestamp 5 0)).
Proof.
  intros fs.
  split; [reflexivity | ]. split; [reflexivity | ].
  split; [intros req; reflexivity | ]. split; [reflexivity | ].
  destruct (commit_mode_results 0 fs None sample_batch_of_two
              (mkBeginTransactionResponse [Byte.x2a]) eq_refl eq_refl) as [Hok _].
  destruct (Hok sample_commit_response (mkITimestamp 7 0) (fun _ => eq_refl) eq_refl)
    as (results & Hres & _ & Hith).
  exists results. split; [exact Hres | ].
  split; [exact (Hith 0%nat _ eq_refl) | exact (Hith 1%nat _ eq_refl)].
Defined.

(** ** Results of a bulk commit *)

Lemma bulkResults_ok (results : list IWriteResult) (status : list IStatus) (i : nat) :
  (i + length results <= length status)%nat ->
  exists rs,
    bulkResults results status i = Ok rs /\
    length rs = length results /\
    forall j writeResult st,
      results !! j = Some writeResult -> status !! (i + j)%nat = Some st ->
      rs !! j = Some (bulkResultOf writeResult st).
Proof.
  revert i. induction results as [ | wr results IH]; intros i Hlen.
  - exists []. by repeat split.
  - simpl in *.
    destruct (status !! i) as [st | ] eqn:Hst.
    2: { apply lookup_ge_None in Hst. lia. }
    destruct (IH (S i)) as (rs & -> & Hl & Hith); [lia | ].
    eexists. split; [done | ]. split; [simpl; lia | ].
    intros [ | j] wr' st' Hj Hs; simpl in *.
    + replace (i + 0)%nat with i in Hs by lia. by simplify_eq.
    + apply Hith; [done | ]. replace (S (i + j)) with (i + S j)%nat by lia. exact Hs.
Qed.

(** Resolving the slots from [index] on: every slot in range gets its
    result if it was pending, and the slots below [index] are not touched. *)
Lemma resolveAll_spec (results : list BatchWriteResult) (index : nat) b :
  (forall j, (j < length results)%nat -> is_Some (resultsMap b !! (index + j)%nat)) ->
  exists m,
    resolveAll results index b = (set_resultsMap m b, [], Ok tt) /\
    (forall k, (k < index)%nat -> m !! k = resultsMap b !! k) /\
    (forall j result,
        results !! j = Some result -> resultsMap b !! (index + j)%nat = Some None ->
        m !! (index + j)%nat = Some (Some result)).
Proof.
  revert index b. induction results as [ | r results IH]; intros index b Hslots.
  - exists (resultsMap b). split; [by destruct b | ]. by split.
  - destruct (Hslots 0%nat) as [d Hd]; [simpl; lia | ].
    replace (index + 0)%nat with index in Hd by lia.
    set (b1 := set_resultsMap (<[index := resolve d r]> (resultsMap b)) b).
    destruct (IH (S index) b1) as (m & Hrun & Hbelow & Hin).
    { intros j Hj. simpl. rewrite lookup_insert_ne by lia.
      replace (S (index + j)) with (index + S j)%nat by lia.
      apply Hslots. simpl. lia. }
    exists m. split; [ | split].
    + simpl. unfold mbind, M_bind, bind, get, modify. simpl. rewrite Hd.
      fold b1. rewrite Hrun. by destruct b.
    + intros k Hk. rewrite Hbelow by lia. simpl. by rewrite lookup_insert_ne by lia.
    + intros [ | j] result Hj Hpending; simpl in Hj.
      * replace (index + 0)%nat with index in * by lia.
        rewrite Hbelow by lia. simpl. rewrite lookup_insert_eq.
        assert (Hdn : Some d = Some None).
        { transitivity (resultsMap b !! index); [symmetry; exact Hd | exact Hpending]. }
        by simplify_eq.
      * replace (index + S j)%nat with (S index + j)%nat in * by lia.
        apply Hin; [done | ]. simpl. by rewrite lookup_insert_ne by lia.
Qed.

(** C1, as the code has it: after a bulk commit whose response has a status
    for every write result, and whose results go to pending slots,
    operation [i]'s promise is settled from [writeResults[i]] and
    [status[i]] alone: it resolves with [WriteResult(updateTime)] exactly
    when [writeResults[i].updateTime] is present, whatever the status code,
    and otherwise rejects with an error carrying [status[i].code] and
    [status[i].message]. *)
Theorem bulk_results_settle_each_slot (fs : Firestore) (b : UpdateBuilder)
    (response : BatchWriteResponse) :
  initializeIfNeeded fs = Ok tt ->
  request_batchWrite fs (bulkRequest fs b) = Ok response ->
  let writeResults := default [] (bw_writeResults response) in
  (length writeResults <= length (bw_status response))%nat ->
  (forall i, (i < length writeResults)%nat -> resultsMap b !! i = Some None) ->
  let r := (bulkCommit fs ≫= processResults) b in
  outcome_of r = Ok tt /\
  forall i writeResult status,
    writeResults !! i = Some writeResult ->
    bw_status response !! i = Some status ->
    promiseOf (batch_of r) i =
    Some (match updateTime writeResult with
          | Some t => Fulfilled (mkWriteResult (Timestamp_fromProto t))
          | None =>
              RejectedWith (mkGoogleError (default "" (st_message status)) (st_code status))
          end).
Proof.
  intros Hinit Hreq writeResults Hlen Hpending r. subst r.
  destruct (bulkResults_ok writeResults (bw_status response) 0 Hlen)
    as (rs & Hrs & Hlrs & Hith).
  destruct (resolveAll_spec rs 0 (set_committed true b)) as (m & Hrun & _ & Hslot).
  { intros j Hj. simpl. rewrite Hpending by lia. eauto. }
  unfold mbind, M_bind, bind. rewrite bulkCommit_unfold, Hinit, Hreq.
  fold writeResults. rewrite Hrs.
  unfold processResults, mbind, M_bind, bind, modify. rewrite Hrun. simpl.
  split; [done | ].
  intros i wr st Hwr Hst. unfold promiseOf, batch_of. simpl.
  assert (Hi : (i < length writeResults)%nat) by (by apply lookup_lt_Some in Hwr).
  specialize (Hslot i (bulkResultOf wr st)). simpl in Hslot.
  rewrite Hslot; [ | by apply Hith | by apply Hpending].
  unfold settle, bulkResultOf, errorOf. simpl. by destruct (updateTime wr).
Qed.

Lemma bulk_results_settle_each_slot_witness :
  let fs := sample_bulk_firestore sample_mixed_response in
  let b := sample_batch_of_two in
  let r := (bulkCommit fs ≫= processResults) b in
  initializeIfNeeded fs = Ok tt /\
  request_batchWrite fs (bulkRequest fs b) = Ok sample_mixed_response /\
  outcome_of r = Ok tt /\
  promiseOf (batch_of r) 0 = Some (Fulfilled (mkWriteResult (mkTimestamp 2 0))) /\
  promiseOf (batch_of r) 1
  = Some (RejectedWith (mkGoogleError "" (Some Status_UNAVAILABLE))).
Proof.
  intros fs b r.
  assert (Hlen : (length (default [] (bw_writeResults sample_mixed_response))
                  <= length (bw_status sample_mixed_response))%nat) by (simpl; lia).
  assert (Hpending : forall i,
    (i < length (default [] (bw_writeResults sample_mixed_response)))%nat ->
    resultsMap b !! i = Some None).
  { intros [ | [ | i]] Hi; [reflexivity | reflexivity | simpl in Hi; lia]. }
  destruct (bulk_results_settle_each_slot fs b sample_mixed_response eq_refl eq_refl
              Hlen Hpending) as [Hok Hith].
  split; [reflexivity | ]. split; [reflexivity | ]. split; [exact Hok | ].
  split.
  - exact (Hith 0%nat (successResult 2) successStatus eq_refl eq_refl).
  - exact (Hith 1%nat failResult failStatus eq_refl eq_refl).
Defined.

(** C1 as stated fails: the promise of an operation whose status code is
    not OK is resolved, not rejected, when its write result has an update
    time. *)
Lemma bulk_status_not_consulted_counterexample :
  let fs := sample_bulk_firestore sample_unavailable_with_time in
  let r := (bulkCommit fs ≫= processResults) sample_batch in
  default [] (bw_writeResults sample_unavailable_with_time) !! 0%nat
  = Some (successResult 2) /\
  bw_status sample_unavailable_with_time !! 0%nat = Some failStatus /\
  st_code failStatus <> Some Status_OK /\
  promiseOf (batch_of r) 0 = Some (Fulfilled (mkWriteResult (mkTimestamp 2 0))).
Proof. vm_compute. repeat split. discriminate. Qed.

(** ** Preconditions on the wire *)

(** A write leaves with [currentDocument] set to the producer's
    precondition exactly when the producer returned one. *)
Lemma attach_currentDocument (req : WriteOp) :
  w_currentDocument (write req) = None ->
  w_currentDocument (attach req) = precondition req.
Proof. intros H. unfold attach. by destruct (precondition req). Qed.

(** An [update] without a precondition argument, or with a
    [lastUpdateTime], sends a precondition. *)
Lemma update_precondition_present (c : UpdateCall) :
  match up_precondition c with
  | None => True
  | Some (PreconditionObject _ (Present _)) => True
  | Some _ => False
  end ->
  is_Some (precondition (run (update_op c (update_precondition c)))).
Proof.
  unfold run, update_op, update_precondition, Precondition_toProto. simpl.
  destruct (up_precondition c) as [[ | e [ | t | ]] | ]; simpl; try done; eauto.
Qed.

(** C3: the code at the input that breaks the claim.  An [update] called
    with an empty object as its precondition is accepted, and the write it
    contributes to the batchWrite request has no [currentDocument]; the same
    call without the trailing argument sends [exists: true]. *)
Theorem update_empty_precondition_sends_no_currentDocument :
  let fs := sample_bulk_firestore sample_mixed_response in
  let r := update sample_update_empty_precondition (newBatch MAX_BATCH_SIZE) in
  let r' := update (sample_update "doc" "bar1" None) (newBatch MAX_BATCH_SIZE) in
  outcome_of r = Ok 0%nat /\
  map w_currentDocument (bw_writes (bulkRequest fs (batch_of r))) = [None] /\
  map w_currentDocument (bw_writes (bulkRequest fs (batch_of r')))
  = [Some (mkIPrecondition (Some true) None)].
Proof. vm_compute. by repeat split. Qed.

(** ** Reset *)

(** C7: the code at the inputs that break the invariant.  After a [set]
    and a [_reset] the batch has one document path and one result slot but
    no operation; after a second [set] to the same document, which throws,
    it has one document path and two operations. *)
Theorem docPaths_operations_mismatch :
  let op := Set_ (sample_set "doc" "bar") in
  let reset := batch_of ((append op;; _reset) (newBatch MAX_BATCH_SIZE)) in
  let twice := (append op;; append op) (newBatch MAX_BATCH_SIZE) in
  (size (docPaths reset) = 1%nat /\ opCount reset = 1%nat /\ length (_ops reset) = 0%nat) /\
  (outcome_of twice = Throw (AssertionError duplicate_message) /\
   size (docPaths (batch_of twice)) = 1%nat /\ length (_ops (batch_of twice)) = 2%nat).
Proof. vm_compute. by repeat split. Qed.

(** C9: the code at the input that breaks the claim.  A batch that was
    committed and reset has no operations and is not committed, but a [set]
    to the document written before the reset throws the duplicate-document
    assertion, where a fresh batch accepts it. *)
Theorem reset_batch_refuses_same_document :
  let op := Set_ (sample_set "doc" "bar") in
  let fs := sample_idle_firestore in
  let b := batch_of ((append op;; commit_ 2 fs None;; _reset) (newBatch MAX_BATCH_SIZE)) in
  length (_ops b) = 0%nat /\ _committed b = false /\
  outcome_of (append op b) = Throw (AssertionError duplicate_message) /\
  outcome_of (append op (newBatch MAX_BATCH_SIZE)) = Ok 0%nat.
Proof. vm_compute. by repeat split. Qed.

(** ** Deferred serialisation *)

Lemma silent_inert {A} (m : M A) : inert m -> silent m.
Proof. intros Hm b. by destruct (Hm b) as [[a ->] | [e ->]]. Qed.

Lemma silent_bind {A B} (m : M A) (k : A -> M B) :
  silent m -> (forall a, silent (k a)) -> silent (m ≫= k).
Proof.
  intros Hm Hk b. specialize (Hm b). unfold mbind, M_bind, bind, events_of in *.
  destruct (m b) as [[b1 tr1] [a | e | ]]; simpl in *; try done.
  specialize (Hk a b1). unfold events_of in Hk.
  destruct (k a b1) as [[b2 tr2] r]. simpl in *. by subst.
Qed.

Lemma silent_modify f : silent (modify f).
Proof. done. Qed.

Lemma silent_processOperation d : silent (processOperation d).
Proof.
  unfold processOperation.
  repeat first
    [ apply silent_bind; [ | intros ? ]
    | apply silent_modify
    | apply silent_inert; solve [auto with inert]
    | match goal with |- silent (if ?c then _ else _) => destruct c end ].
Qed.

Ltac silent_steps :=
  repeat first
    [ apply silent_processOperation
    | apply silent_modify
    | apply silent_inert; solve [inert_steps]
    | apply silent_bind; [ | intros ? ] ].

Lemma silent_append (op : WriteCall) : silent (append op).
Proof. destruct op; simpl; unfold create, set, update, delete; silent_steps. Qed.

(** [processOperation] never touches the operation list. *)
Lemma processOperation_ops d b : _ops (batch_of (processOperation d b)) = _ops b.
Proof.
  destruct (decide (path d ∈ docPaths b)) as [Hin | Hin].
  - by rewrite processOperation_duplicate.
  - destruct (decide (state b = OPEN)) as [Hst | Hst].
    + by rewrite processOperation_open.
    + by rewrite processOperation_not_open.
Qed.

Lemma inert_ok_inv {A B} (m : M A) (k : A -> M B) b x :
  inert m -> outcome_of ((m ≫= k) b) = Ok x ->
  exists a, m b = (b, [], Ok a) /\ (m ≫= k) b = k a b.
Proof.
  intros Hm Hok. destruct (Hm b) as [[a Ha] | [e He]].
  - exists a. split; [done | by apply returns_then].
  - by rewrite (throws_then _ _ _ _ He) in Hok.
Qed.

Lemma modify_then {B} f (k : unit -> M B) b : (modify f ≫= k) b = k tt (f b).
Proof. unfold mbind, M_bind, bind, modify. by destruct (k tt (f b)) as [[b2 tr2] r]. Qed.

(** The precondition the validation block of [update] returns. *)
Lemma update_precondition_returned (c : UpdateCall) b b' tr p :
  rethrow UpdateUsage
    (check (up_validateFields c);;
     match up_precondition c with
     | Some value =>
         validateUpdatePrecondition (up_preconditionArg c) value;;
         mret (newPrecondition (Some value))
     | None => mret (mkPrecondition (Some true) None)
     end) b = (b', tr, Ok p) ->
  p = update_precondition c.
Proof.
  unfold rethrow, update_precondition.
  destruct (up_validateFields c); [done | ].
  rewrite (returns_then _ _ b tt) by done.
  destruct (up_precondition c) as [value | ]; [ | by intros [= _ _ <-]].
  destruct (inert_validateUpdatePrecondition (up_preconditionArg c) value b)
    as [[[] Ha] | [e He]].
  - rewrite (returns_then _ _ b tt) by done. by intros [= _ _ <-].
  - by rewrite (throws_then _ _ _ _ He).
Qed.

(** A call that returns has pushed its producer at the end of the list. *)
Lemma append_ok_ops (op : WriteCall) b slot :
  outcome_of (append op b) = Ok slot ->
  _ops (batch_of (append op b)) = _ops b ++ [producer op].
Proof.
  destruct op as [c | c | c | c]; simpl; intros H.
  - unfold create in *.
    do 5 (apply inert_ok_inv in H as H'; [ | solve [inert_steps]];
          destruct H' as (? & _ & Hk); rewrite Hk in *; clear Hk).
    rewrite modify_then in *. by rewrite processOperation_ops.
  - unfold set in *.
    do 7 (apply inert_ok_inv in H as H'; [ | solve [inert_steps]];
          destruct H' as (? & _ & Hk); rewrite Hk in *; clear Hk).
    rewrite modify_then in *. by rewrite processOperation_ops.
  - unfold update in *.
    do 3 (apply inert_ok_inv in H as H'; [ | solve [inert_steps]];
          destruct H' as (? & _ & Hk); rewrite Hk in *; clear Hk).
    apply inert_ok_inv in H as H'; [ | solve [inert_steps]].
    destruct H' as (p & Hp & Hk). rewrite Hk in *. clear Hk.
    apply update_precondition_returned in Hp as ->.
    do 2 (apply inert_ok_inv in H as H'; [ | solve [inert_steps]];
          destruct H' as (? & _ & Hk); rewrite Hk in *; clear Hk).
    rewrite modify_then in *. by rewrite processOperation_ops.
  - unfold delete in *.
    do 3 (apply inert_ok_inv in H as H'; [ | solve [inert_steps]];
          destruct H' as (? & _ & Hk); rewrite Hk in *; clear Hk).
    rewrite modify_then in *. by rewrite processOperation_ops.
Qed.

Lemma appendAll_ok (ops : list WriteCall) b0 b evs :
  appendAll ops b0 = (b, evs, Ok tt) ->
  evs = [] /\ _ops b = _ops b0 ++ map producer ops.
Proof.
  revert b0 evs. induction ops as [ | op ops IH]; intros b0 evs.
  - intros [= <- <-]. by rewrite app_nil_r.
  - simpl. unfold mbind, M_bind, bind.
    pose proof (silent_append op b0) as Hsilent.
    pose proof (append_ok_ops op b0) as Hops.
    unfold events_of, outcome_of, batch_of in *.
    destruct (append op b0) as [[b1 tr1] [slot | e | ]]; simpl in *; try done.
    destruct (appendAll ops b1) as [[b2 tr2] r] eqn:Hrest.
    intros [= -> <- ->]. subst tr1.
    destruct (IH b1 tr2 Hrest) as [-> Hb2].
    split; [done | ].
    rewrite Hb2, (Hops slot eq_refl). by rewrite <- app_assoc.
Qed.

Lemma commit_events (fuel : nat) (fs : Firestore) commitOptions b resp :
  initializeIfNeeded fs = Ok tt ->
  request_beginTransaction fs = Ok resp ->
  exists prefix tx,
    (prefix = [] \/ prefix = [BeginTransactionRpc (fs_formattedName fs)]) /\
    events_of (commit_ (S (S fuel)) fs commitOptions b)
    = prefix ++ events_of (commit_send fs tx b).
Proof.
  intros Hinit Hbegin.
  destruct (negb (truthy (explicitTransaction commitOptions)) && _shouldCreateTransaction fs)
    eqn:Hcase.
  - apply andb_prop in Hcase as [Hnone Hshould].
    destruct (explicitTransaction commitOptions) eqn:Hexp; [done | ].
    exists [BeginTransactionRpc (fs_formattedName fs)], (Some (transaction resp)).
    rewrite commit_transactional by done. rewrite Hbegin. auto.
  - exists [], (explicitTransaction commitOptions). rewrite commit_direct by done. auto.
Qed.

(** C10: no write call invokes a producer (a write call records no event
    at all); after a sequence of calls that all returned, [bulkCommit]
    invokes the producers in the order of the calls and then sends a request
    whose [writes[i]] is the wire form of the i-th call's producer; and
    [commit_] does the same for the commit request, after at most a
    [beginTransaction]. *)
Theorem producers_run_at_commit (fs : Firestore) (ops : list WriteCall) (maxSize : Z)
    (b : UpdateBuilder) (evs : list Event) (resp : BeginTransactionResponse) :
  initializeIfNeeded fs = Ok tt ->
  request_beginTransaction fs = Ok resp ->
  appendAll ops (newBatch maxSize) = (b, evs, Ok tt) ->
  let invocations := map (fun op => Produced (run (producer op))) ops in
  let writes := map (fun op => wire (producer op)) ops in
  (forall op b0, events_of (append op b0) = []) /\
  evs = [] /\
  events_of (bulkCommit fs b)
  = invocations ++ [BatchWriteRpc (mkBatchWriteRequest (fs_formattedName fs) writes)] /\
  forall fuel commitOptions,
  exists prefix tx,
    (prefix = [] \/ prefix = [BeginTransactionRpc (fs_formattedName fs)]) /\
    events_of (commit_ (S (S fuel)) fs commitOptions b)
    = prefix ++ invocations
        ++ [CommitRpc (mkCommitRequest (fs_formattedName fs) writes tx)].
Proof.
  intros Hinit Hbegin Hrun invocations writes.
  destruct (appendAll_ok ops _ b evs Hrun) as [-> Hops]. simpl in Hops.
  assert (Hinv : produced b = invocations).
  { unfold produced, invocations. by rewrite Hops, map_map. }
  assert (Hwr : map wire (_ops b) = writes).
  { unfold writes. by rewrite Hops, map_map. }
  split; [exact silent_append | ]. split; [done | ]. split.
  - rewrite bulkCommit_unfold, Hinit. unfold events_of, bulkRequest. simpl.
    by rewrite Hinv, Hwr.
  - intros fuel commitOptions.
    destruct (commit_events fuel fs commitOptions b resp Hinit Hbegin)
      as (prefix & tx & Hprefix & Hev).
    exists prefix, tx. split; [done | ].
    rewrite Hev. unfold commit_send, events_of, commitRequest. simpl.
    by rewrite Hinv, Hwr.
Qed.

Lemma producers_run_at_commit_witness :
  let fs := sample_idle_firestore in
  let ops := [Set_ (sample_set "doc1" "bar"); Update (sample_update "doc2" "bar" None)] in
  let r := appendAll ops (newBatch MAX_BATCH_SIZE) in
  initializeIfNeeded fs = Ok tt /\
  request_beginTransaction fs = Ok (mkBeginTransactionResponse [Byte.x2a]) /\
  outcome_of r = Ok tt /\
  events_of r = [] /\
  events_of (bulkCommit fs (batch_of r))
  = map (fun op => Produced (run (producer op))) ops
      ++ [BatchWriteRpc (mkBatchWriteRequest (fs_formattedName fs)
                           (map (fun op => wire (producer op)) ops))].
Proof.
  intros fs ops r.
  pose proof (producers_run_at_commit fs ops MAX_BATCH_SIZE (batch_of r) (events_of r)
                (mkBeginTransactionResponse [Byte.x2a]) eq_refl eq_refl eq_refl)
    as (_ & Hevs & Hbulk & _).
  split; [reflexivity | ]. split; [reflexivity | ]. split; [reflexivity | ].
  split; [exact Hevs | exact Hbulk].
Defined.

(** ** BulkWriter: writes to the same document *)

Lemma requestsOf_app evs1 evs2 : requestsOf (evs1 ++ evs2) = requestsOf evs1 ++ requestsOf evs2.
Proof. apply omap_app. Qed.

Lemma requestsOf_produced b : requestsOf (produced b) = [].
Proof. unfold produced, requestsOf. by induction (_ops b). Qed.

Lemma silent_resolveAll results index : silent (resolveAll results index).
Proof.
  revert index. induction results as [ | r results IH]; intros index; simpl.
  - by apply silent_inert, inert_ret.
  - apply silent_bind; [by apply silent_inert, inert_get | intros b].
    destruct (resultsMap b !! index).
    + apply silent_bind; [apply silent_modify | intros _; apply IH].
    + by apply silent_inert, inert_throw.
Qed.

Lemma silent_processResults results : silent (processResults results).
Proof.
  unfold processResults.
  apply silent_bind; [apply silent_resolveAll | intros _; apply silent_modify].
Qed.

(** A batch that is sent puts exactly one request on the wire: the one
    built from its operations. *)
Lemma send_requests (fs : Firestore) b :
  initializeIfNeeded fs = Ok tt ->
  requestsOf (BulkWriter.send fs b).2 = [bulkRequest fs b].
Proof.
  intros Hinit. unfold BulkWriter.send.
  rewrite modify_then, bulkCommit_unfold, Hinit.
  match goal with
  | |- context [processResults ?rs ?b1] =>
      pose proof (silent_processResults rs b1) as Hs;
      destruct (processResults rs b1) as [[b2 evs2] r2]
  end.
  unfold events_of in Hs. simpl in *. subst evs2.
  rewrite app_nil_r, requestsOf_app, requestsOf_produced. done.
Qed.

Lemma dispatch_one (fs : Firestore) b rest :
  state b = READY_TO_SEND ->
  match rest with
  | [] => True
  | next :: _ => state next = OPEN
  end ->
  BulkWriter.dispatch fs (b :: rest)
  = ([(BulkWriter.send fs b).1], rest, (BulkWriter.send fs b).2).
Proof.
  intros Hb Hrest. simpl. rewrite Hb. simpl.
  destruct (BulkWriter.send fs b) as [b' evs]. simpl.
  destruct rest as [ | next rest]; simpl; [by rewrite app_nil_r | ].
  rewrite Hrest. simpl. by rewrite app_nil_r.
Qed.

Lemma dispatch_open (fs : Firestore) b rest :
  state b = OPEN -> BulkWriter.dispatch fs (b :: rest) = ([], b :: rest, []).
Proof. intros Hb. simpl. by rewrite Hb. Qed.

(** The first write of a batch. *)
Lemma append_first (op : WriteCall) (maxSize : Z) :
  validates op ->
  append op (newBatch maxSize)
  = (recorded (documentRef op) (push_op (producer op) (newBatch maxSize)), [], Ok 0%nat).
Proof.
  intros Hv. rewrite append_validated by done.
  by rewrite processOperation_open.
Qed.

Lemma markReadyToSend_open b :
  state b = OPEN -> markReadyToSend b = (set_state READY_TO_SEND b, [], Ok tt).
Proof. intros H. unfold markReadyToSend, mbind, M_bind, bind, get. simpl. by rewrite H. Qed.

(** Routing a write whose document is in the current Open batch: that
    batch becomes ReadyToSend and the write goes to a new batch behind it. *)
Lemma route_same_document (op : WriteCall) (w : BulkWriter.t) queue current :
  BulkWriter.closed w = false ->
  BulkWriter.batchQueue w = queue ++ [current] ->
  state current = OPEN ->
  path (documentRef op) ∈ docPaths current ->
  let r := append op (newBatch (BulkWriter.maxBatchSize w)) in
  BulkWriter.route op w
  = (BulkWriter.mk (queue ++ [set_state READY_TO_SEND current; batch_of r])
       (BulkWriter.sent w) false (BulkWriter.maxBatchSize w) (BulkWriter.log w),
     outcome_of r).
Proof.
  intros Hclosed Hqueue Hopen Hin r. unfold BulkWriter.route.
  rewrite Hclosed, Hqueue.
  unfold BulkWriter.ensureOpen. rewrite last_snoc, Hopen. simpl.
  unfold BulkWriter.splitOnSameDocument. rewrite last_snoc.
  rewrite (bool_decide_eq_true_2 _ Hin), removelast_last.
  rewrite (markReadyToSend_open current Hopen). unfold batch_of at 1. simpl.
  unfold BulkWriter.appendToLast.
  replace (queue ++ [set_state READY_TO_SEND current; newBatch (BulkWriter.maxBatchSize w)])
    with ((queue ++ [set_state READY_TO_SEND current])
            ++ [newBatch (BulkWriter.maxBatchSize w)])
    by (by rewrite <- app_assoc).
  rewrite last_snoc, removelast_last. fold r.
  by rewrite <- app_assoc.
Qed.

(** The batch a first write leaves behind holds just that write. *)
Lemma recorded_first (op : WriteCall) (maxSize : Z) :
  let b := recorded (documentRef op) (push_op (producer op) (newBatch maxSize)) in
  _ops b = [producer op] /\
  docPaths b = {[path (documentRef op)]} ∪ ∅ /\
  state b = (if Z.of_nat 1 =? maxSize then READY_TO_SEND else OPEN).
Proof. done. Qed.

Lemma route_empty (op : WriteCall) sent maxSize log :
  validates op ->
  BulkWriter.route op (BulkWriter.mk [] sent false maxSize log)
  = (BulkWriter.mk [first_batch op maxSize] sent false maxSize log, Ok 0%nat).
Proof.
  intros Hv. unfold BulkWriter.route, BulkWriter.ensureOpen,
    BulkWriter.splitOnSameDocument, BulkWriter.appendToLast.
  cbn [BulkWriter.closed BulkWriter.batchQueue BulkWriter.maxBatchSize
       BulkWriter.sent BulkWriter.log last app].
  rewrite bool_decide_eq_false_2 by (cbn; set_solver).
  cbn [last removelast app]. by rewrite (append_first op maxSize Hv).
Qed.

Lemma kick_open (fs : Firestore) b sent closed maxSize log :
  state b = OPEN ->
  BulkWriter.kick fs (BulkWriter.mk [b] sent closed maxSize log)
  = BulkWriter.mk [b] sent closed maxSize log.
Proof.
  intros Hb. unfold BulkWriter.kick. cbn [BulkWriter.batchQueue].
  rewrite dispatch_open by done. cbn. by rewrite !app_nil_r.
Qed.

Lemma kick_ready (fs : Firestore) b rest sent closed maxSize log :
  state b = READY_TO_SEND ->
  match rest with
  | [] => True
  | next :: _ => state next = OPEN
  end ->
  BulkWriter.kick fs (BulkWriter.mk (b :: rest) sent closed maxSize log)
  = BulkWriter.mk rest (sent ++ [(BulkWriter.send fs b).1]) closed maxSize
      (log ++ (BulkWriter.send fs b).2).
Proof.
  intros Hb Hrest. unfold BulkWriter.kick. cbn [BulkWriter.batchQueue].
  by rewrite dispatch_one.
Qed.

Lemma close_empty (fs : Firestore) sent maxSize log :
  BulkWriter.close fs (BulkWriter.mk [] sent false maxSize log)
  = (BulkWriter.mk [] sent true maxSize log, Ok tt).
Proof.
  unfold BulkWriter.close, BulkWriter.flush, BulkWriter.kick. cbn.
  by rewrite !app_nil_r.
Qed.

Lemma close_one_open (fs : Firestore) b sent maxSize log :
  state b = OPEN ->
  BulkWriter.close fs (BulkWriter.mk [b] sent false maxSize log)
  = (BulkWriter.mk [] (sent ++ [(BulkWriter.send fs (set_state READY_TO_SEND b)).1]) true
       maxSize (log ++ (BulkWriter.send fs (set_state READY_TO_SEND b)).2), Ok tt).
Proof.
  intros Hb. unfold BulkWriter.close, BulkWriter.flush.
  cbn [BulkWriter.closed BulkWriter.batchQueue BulkWriter.sent BulkWriter.maxBatchSize
       BulkWriter.log map].
  rewrite (markReadyToSend_open b Hb). unfold batch_of. cbn [fst].
  by rewrite kick_ready.
Qed.

(** C6: a write enqueued for a document of the current Open batch turns
    that batch ReadyToSend and lands in a freshly allocated batch behind it;
    and two valid writes to one document, enqueued on a new writer that is
    then closed, leave in two batchWrite requests of one write each, the
    first write first. *)
Theorem same_document_goes_to_new_batch (fs : Firestore) (op1 op2 : WriteCall)
    (maxSize : Z) :
  initializeIfNeeded fs = Ok tt ->
  validates op1 -> validates op2 ->
  path (documentRef op1) = path (documentRef op2) ->
  (forall w queue current,
      BulkWriter.closed w = false ->
      BulkWriter.batchQueue w = queue ++ [current] ->
      state current = OPEN ->
      path (documentRef op2) ∈ docPaths current ->
      let r := append op2 (newBatch (BulkWriter.maxBatchSize w)) in
      (BulkWriter.route op2 w).2 = Ok 0%nat /\
      BulkWriter.batchQueue (BulkWriter.route op2 w).1
      = queue ++ [set_state READY_TO_SEND current; batch_of r] /\
      _ops (batch_of r) = [producer op2]) /\
  let w1 := (BulkWriter.enqueue fs op1 (BulkWriter.new maxSize)).1 in
  let w2 := (BulkWriter.enqueue fs op2 w1).1 in
  let w3 := (BulkWriter.close fs w2).1 in
  BulkWriter.requests w3
  = [mkBatchWriteRequest (fs_formattedName fs) [wire (producer op1)];
     mkBatchWriteRequest (fs_formattedName fs) [wire (producer op2)]].
Proof.
  intros Hinit Hv1 Hv2 Hpath. split.
  - intros w queue current Hclosed Hqueue Hopen Hin r.
    rewrite (route_same_document op2 w queue current Hclosed Hqueue Hopen Hin).
    subst r. rewrite (append_first op2 _ Hv2). by repeat split.
  - destruct (recorded_first op1 maxSize) as (Hops1 & Hdocs1 & Hst1).
    destruct (recorded_first op2 maxSize) as (Hops2 & Hdocs2 & Hst2).
    fold (first_batch op1 maxSize) in Hops1, Hdocs1, Hst1.
    fold (first_batch op2 maxSize) in Hops2, Hdocs2, Hst2.
    assert (Hreq : forall op b, _ops b = [producer op] ->
              requestsOf (BulkWriter.send fs b).2
              = [mkBatchWriteRequest (fs_formattedName fs) [wire (producer op)]]).
    { intros op b Hb. rewrite send_requests by done. unfold bulkRequest. by rewrite Hb. }
    intros w1 w2 w3. subst w3 w2 w1.
    unfold BulkWriter.enqueue at 2, BulkWriter.new.
    rewrite (route_empty op1 _ _ _ Hv1). cbn [fst snd].
    destruct (Z.of_nat 1 =? maxSize) eqn:Hfull.
    + rewrite kick_ready by done.
      unfold BulkWriter.enqueue.
      rewrite (route_empty op2 _ _ _ Hv2). cbn [fst snd].
      rewrite kick_ready by done.
      rewrite close_empty. cbn [fst]. unfold BulkWriter.requests. cbn [BulkWriter.log].
      fold requestsOf. rewrite !requestsOf_app, (Hreq op1), (Hreq op2) by done. done.
    + rewrite kick_open by done.
      assert (Hin : path (documentRef op2) ∈ docPaths (first_batch op1 maxSize)).
      { rewrite Hdocs1, <- Hpath. set_solver. }
      unfold BulkWriter.enqueue.
      rewrite (route_same_document op2
                 (BulkWriter.mk [first_batch op1 maxSize] [] false maxSize [])
                 [] (first_batch op1 maxSize) eq_refl eq_refl Hst1 Hin).
      cbn [BulkWriter.maxBatchSize BulkWriter.sent BulkWriter.log app fst snd].
      rewrite (append_first op2 maxSize Hv2). fold (first_batch op2 maxSize).
      unfold batch_of at 1. cbn [fst].
      rewrite kick_ready by done.
      rewrite close_one_open by done.
      cbn [fst]. unfold BulkWriter.requests. cbn [BulkWriter.log].
      fold requestsOf. rewrite !requestsOf_app, (Hreq op1), (Hreq op2) by done. done.
Qed.

Lemma same_document_goes_to_new_batch_witness :
  let fs := sample_bulk_firestore sample_mixed_response in
  let op1 := Set_ (sample_set "doc" "bar") in
  let op2 := Update (sample_update "doc" "bar1" None) in
  let w1 := (BulkWriter.enqueue fs op1 (BulkWriter.new MAX_BATCH_SIZE)).1 in
  let w2 := (BulkWriter.enqueue fs op2 w1).1 in
  let w3 := (BulkWriter.close fs w2).1 in
  initializeIfNeeded fs = Ok tt /\ validates op1 /\ validates op2 /\
  path (documentRef op1) = path (documentRef op2) /\
  BulkWriter.requests w3
  = [mkBatchWriteRequest (fs_formattedName fs) [wire (producer op1)];
     mkBatchWriteRequest (fs_formattedName fs) [wire (producer op2)]].
Proof.
  intros fs op1 op2 w1 w2 w3.
  assert (Hv1 : validates op1) by (repeat split; reflexivity).
  assert (Hv2 : validates op2).
  { split; [reflexivity | ]. split; [reflexivity | ]. split; [reflexivity | ].
    split; [exact I | ]. split; [intros b; reflexivity | reflexivity]. }
  split; [reflexivity | ]. split; [exact Hv1 | ]. split; [exact Hv2 | ].
  split; [reflexivity | ].
  exact (proj2 (same_document_goes_to_new_batch fs op1 op2 MAX_BATCH_SIZE eq_refl
                  Hv1 Hv2 eq_refl)).
Defined.

(** * Further properties of the batch *)

(** ** What each method does to the batch *)

Lemma inert_bind_cases {A B} (m : M A) (k : A -> M B) b :
  inert m ->
  (exists e, (m ≫= k) b = (b, [], Throw e)) \/ (exists a, (m ≫= k) b = k a b).
Proof.
  intros Hm. destruct (Hm b) as [[a Ha] | [e He]].
  - right. exists a. by apply returns_then.
  - left. exists e. by apply throws_then.
Qed.

Ltac peel_inert :=
  match goal with
  | |- (exists e, (?m ≫= ?k) ?b = (?b, [], Throw e)) \/ _ =>
      let e := fresh "e" in
      let a := fresh "a" in
      let H := fresh "H" in
      destruct (inert_bind_cases m k b) as [[e H] | [a H]];
      [ solve [inert_steps] | left; exists e; exact H | rewrite H; clear H ]
  end.

(** A write call either throws before it touches the batch, or pushes a
    producer and runs [processOperation]. *)
Lemma append_shape (op : WriteCall) b :
  (exists e, append op b = (b, [], Throw e)) \/
  (exists p, append op b = processOperation (documentRef op) (push_op p b)).
Proof.
  destruct op as [c | c | c | c]; simpl.
  - unfold create. do 5 peel_inert. right. eexists. by rewrite modify_then.
  - unfold set. do 7 peel_inert. right. eexists. by rewrite modify_then.
  - unfold update. do 6 peel_inert. right. eexists. by rewrite modify_then.
  - unfold delete. do 3 peel_inert. right. eexists. by rewrite modify_then.
Qed.

(** The two ways a write call ends: it throws and leaves everything but the
    operation list as it was, or it returns the next slot and leaves the
    batch [processOperation] records. *)
Lemma append_cases (op : WriteCall) b :
  (exists e, exists ops, append op b = (set_ops ops b, [], Throw e)) \/
  (exists p,
      append op b = (recorded (documentRef op) (push_op p b), [], Ok (opCount b)) /\
      (path (documentRef op) ∉ docPaths b) /\ state b = OPEN).
Proof.
  destruct (append_shape op b) as [[e He] | [p Hp]].
  - left. exists e, (_ops b). rewrite He. by destruct b.
  - rewrite Hp.
    destruct (decide (path (documentRef op) ∈ docPaths b)) as [Hin | Hin].
    { left. eexists _, _. by rewrite processOperation_duplicate. }
    destruct (decide (state b = OPEN)) as [Hst | Hst].
    + right. exists p. by rewrite processOperation_open.
    + left. eexists _, _. by rewrite processOperation_not_open.
Qed.

(** One round of [commit_], whatever the transport answers. *)
Lemma commit_unfold (fuel : nat) (fs : Firestore) commitOptions b :
  commit_ (S fuel) fs commitOptions b =
  match initializeIfNeeded fs with
  | Ok _ =>
      if negb (truthy (explicitTransaction commitOptions)) && _shouldCreateTransaction fs
      then
        match request_beginTransaction fs with
        | Ok resp =>
            let r :=
              commit_ fuel fs (Some (mkCommitOptions (Some (transaction resp)) None))
                (set_committed true b) in
            (batch_of r, BeginTransactionRpc (fs_formattedName fs) :: events_of r,
             outcome_of r)
        | Throw e =>
            (set_committed true b, [BeginTransactionRpc (fs_formattedName fs)], Throw e)
        | OutOfFuel =>
            (set_committed true b, [BeginTransactionRpc (fs_formattedName fs)], OutOfFuel)
        end
      else commit_send fs (explicitTransaction commitOptions) b
  | Throw e => (set_committed true b, [], Throw e)
  | OutOfFuel => (set_committed true b, [], OutOfFuel)
  end.
Proof.
  destruct (initializeIfNeeded fs) as [[] | e | ] eqn:Hinit.
  - destruct (negb (truthy (explicitTransaction commitOptions))
              && _shouldCreateTransaction fs) eqn:Hcase.
    + unfold explicitTransaction in Hcase. simpl.
      unfold mbind at 1 2, M_bind at 1 2, bind at 1 2, modify, lift. simpl.
      rewrite Hinit. simpl.
      change (option_bind CommitOptions (list Byte.byte) transactionId commitOptions)
        with (commitOptions ≫= transactionId).
      rewrite Hcase.
      unfold mbind at 1 2, M_bind at 1 2, bind at 1 2, emit, lift. simpl.
      destruct (request_beginTransaction fs) as [resp | e | ]; try done.
      by destruct (commit_ fuel fs _ (set_committed true b)) as [[b2 tr2] r2].
    + by apply commit_direct.
  - simpl. unfold mbind, M_bind, bind, modify, lift. simpl. by rewrite Hinit.
  - simpl. unfold mbind, M_bind, bind, modify, lift. simpl. by rewrite Hinit.
Qed.

(** [commit_] changes nothing of the batch but the committed flag. *)
Lemma commit_batch (fuel : nat) (fs : Firestore) commitOptions b :
  batch_of (commit_ fuel fs commitOptions b)
  = match fuel with
    | O => b
    | S _ => set_committed true b
    end.
Proof.
  revert commitOptions b. induction fuel as [ | fuel IH]; intros commitOptions b; [done | ].
  rewrite commit_unfold.
  destruct (initializeIfNeeded fs) as [[] | e | ]; try done.
  destruct (negb _ && _); [ | done].
  destruct (request_beginTransaction fs) as [resp | e | ]; try done.
  cbn [batch_of fst]. fold (batch_of (commit_ fuel fs
    (Some (mkCommitOptions (Some (transaction resp)) None)) (set_committed true b))).
  rewrite IH. by destruct fuel.
Qed.

Lemma bulkCommit_batch (fs : Firestore) b :
  batch_of (bulkCommit fs b) = set_committed true b.
Proof.
  rewrite bulkCommit_unfold. by destruct (initializeIfNeeded fs) as [[] | e | ].
Qed.

(** Resolving deferreds keeps the keys of the map and every deferred that
    was resolved before; it ends in a return or in the TypeError of a
    missing slot. *)
Lemma resolveAll_general (results : list BatchWriteResult) (index : nat) b :
  exists m r,
    resolveAll results index b = (set_resultsMap m b, [], r) /\
    resolved_from (resultsMap b) m /\
    (r = Ok tt \/ exists msg, r = Throw (TypeError msg)).
Proof.
  revert index b. induction results as [ | result results IH]; intros index b.
  - exists (resultsMap b), (Ok tt). split; [by destruct b | ]. split; [ | by left].
    intros k. by destruct (resultsMap b !! k) as [[r | ] | ].
  - simpl. unfold mbind at 1, M_bind at 1, bind at 1, get.
    destruct (resultsMap b !! index) as [d | ] eqn:Hd.
    + rewrite modify_then.
      set (b1 := set_resultsMap (<[index := resolve d result]> (resultsMap b)) b).
      destruct (IH (S index) b1) as (m & r & Hrun & Hres & Hr).
      exists m, r. rewrite Hrun. split; [by destruct b | ]. split; [ | done].
      intros k. specialize (Hres k). simpl in Hres.
      destruct (decide (k = index)) as [-> | Hne].
      * rewrite lookup_insert_eq in Hres.
        match goal with
        | |- match ?x with _ => _ end =>
            assert (Hx : x = Some d) by exact Hd; rewrite Hx
        end.
        by destruct d as [r0 | ]; simpl in Hres.
      * by rewrite lookup_insert_ne in Hres by done.
    + exists (resultsMap b), (Throw (TypeError "Cannot read properties of undefined")).
      split; [by destruct b | ]. split; [ | right; eauto].
      intros k. by destruct (resultsMap b !! k) as [[r | ] | ].
Qed.

Lemma resolved_from_dom (m0 m : gmap nat (Deferred BatchWriteResult)) :
  resolved_from m0 m -> dom m = dom m0.
Proof.
  intros H. apply set_eq. intros k. rewrite !elem_of_dom. specialize (H k).
  unfold Deferred in *.
  destruct (m0 !! k) as [[r | ] | ] eqn:Hk.
  - rewrite H. split; eauto.
  - split; eauto.
  - rewrite H. split; intros [? ?]; done.
Qed.

Lemma resolved_from_size (m0 m : gmap nat (Deferred BatchWriteResult)) :
  resolved_from m0 m -> size m = size m0.
Proof. intros H. by rewrite <- !size_dom, (resolved_from_dom _ _ H). Qed.

(** [processResults] changes the result slots by resolving deferreds, and
    the completion deferred; nothing else. *)
Lemma processResults_batch (results : list BatchWriteResult) b :
  exists m c,
    batch_of (processResults results b) = set_completedDeferred c (set_resultsMap m b) /\
    resolved_from (resultsMap b) m.
Proof.
  destruct (resolveAll_general results 0 b) as (m & r & Hrun & Hres & Hr).
  unfold processResults, mbind, M_bind, bind, modify. rewrite Hrun.
  destruct Hr as [-> | [msg ->]].
  - exists m, (resolve (completedDeferred b) tt). done.
  - exists m, (completedDeferred b). split; [ | done]. by destruct b.
Qed.

Lemma resolved_from_refl (m : gmap nat (Deferred BatchWriteResult)) : resolved_from m m.
Proof. intros k. unfold Deferred in *. by destruct (m !! k) as [[r | ] | ]. Qed.

Lemma markReadyToSend_batch b :
  batch_of (markReadyToSend b)
  = if BatchState_eqb (state b) OPEN then set_state READY_TO_SEND b else b.
Proof.
  unfold markReadyToSend, mbind, M_bind, bind, get. simpl.
  by destruct (BatchState_eqb (state b) OPEN).
Qed.

Lemma awaitBulkCommit_batch b :
  batch_of (awaitBulkCommit b) = batch_of (markReadyToSend b).
Proof.
  unfold awaitBulkCommit, mbind, M_bind, bind, get.
  by destruct (markReadyToSend b) as [[b1 tr1] [[] | e | ]].
Qed.

(** Every method either keeps the document paths and the keys of the slots
    (resolving deferreds at most, and moving the state forward at most), or
    is a write call that was accepted. *)
Lemma perform_cases (a : Action) b :
  (docPaths (perform a b) = docPaths b /\
   maxBatchSize (perform a b) = maxBatchSize b /\
   resolved_from (resultsMap b) (resultsMap (perform a b)) /\
   (state (perform a b) = state b \/
    (state b = OPEN /\ state (perform a b) = READY_TO_SEND))) \/
  (exists op p,
      a = Write op /\
      perform a b = recorded (documentRef op) (push_op p b) /\
      (path (documentRef op) ∉ docPaths b) /\ state b = OPEN).
Proof.
  destruct a as [op | fs | fuel fs commitOptions | | results | | ]; simpl.
  - destruct (append_cases op b) as [(e & ops & ->) | (p & -> & Hin & Hst)].
    + left. repeat split; [apply resolved_from_refl | by left].
    + right. by exists op, p.
  - left. rewrite bulkCommit_batch.
    repeat split; [apply resolved_from_refl | by left].
  - left. rewrite commit_batch.
    destruct fuel; (repeat split; [apply resolved_from_refl | by left]).
  - left. repeat split; [apply resolved_from_refl | by left].
  - left. destruct (processResults_batch results b) as (m & c & -> & Hres).
    repeat split; [exact Hres | by left].
  - left. rewrite markReadyToSend_batch.
    destruct (state b) eqn:Hst; simpl;
      (repeat split; [apply resolved_from_refl | ]); rewrite ?Hst; auto.
  - left. rewrite awaitBulkCommit_batch, markReadyToSend_batch.
    destruct (state b) eqn:Hst; simpl;
      (repeat split; [apply resolved_from_refl | ]); rewrite ?Hst; auto.
Qed.

Lemma performAll_invariant (P : UpdateBuilder -> Prop) (actions : list Action) b :
  (forall a b, P b -> P (perform a b)) -> P b -> P (performAll actions b).
Proof.
  intros Hstep. revert b. unfold performAll.
  induction actions as [ | a actions IH]; intros b Hb; simpl; auto.
Qed.

Lemma slot_fresh b : slots_numbered b -> resultsMap b !! opCount b = None.
Proof.
  intros Hn. destruct (resultsMap b !! opCount b) eqn:Hk; [ | done].
  assert (Hlt : (opCount b < opCount b)%nat) by (apply Hn; eauto). lia.
Qed.

Lemma recorded_opCount d b :
  slots_numbered b -> opCount (recorded d b) = S (opCount b).
Proof.
  intros Hn. unfold recorded, opCount at 1. simpl.
  apply map_size_insert_None. by apply slot_fresh.
Qed.

Lemma well_formed_recorded d b :
  well_formed b -> path d ∉ docPaths b -> well_formed (recorded d b).
Proof.
  intros [Hn Hsize] Hin. split.
  - intros k. rewrite recorded_opCount by done. simpl.
    destruct (decide (k = opCount b)) as [-> | Hne].
    + rewrite lookup_insert_eq. split; [lia | eauto].
    + rewrite lookup_insert_ne by done. rewrite (Hn k). lia.
  - rewrite recorded_opCount by done. simpl.
    rewrite size_union by set_solver. rewrite size_singleton. lia.
Qed.

Lemma well_formed_perform (a : Action) b : well_formed b -> well_formed (perform a b).
Proof.
  intros Hwf.
  destruct (perform_cases a b) as [(Hdocs & _ & Hres & _) | (op & p & _ & -> & Hin & _)].
  - destruct Hwf as [Hn Hsize]. unfold well_formed, slots_numbered, opCount in *.
    rewrite Hdocs, (resolved_from_size _ _ Hres). split; [ | done].
    intros k. rewrite <- (Hn k), <- !elem_of_dom. by rewrite (resolved_from_dom _ _ Hres).
  - by apply (well_formed_recorded (documentRef op) (push_op p b)).
Qed.

Lemma well_formed_newBatch (maxSize : Z) : well_formed (newBatch maxSize).
Proof.
  split; [ | done]. intros k. unfold opCount. simpl.
  rewrite lookup_empty, map_size_empty. split; [by intros [? ?] | lia].
Qed.

(** X1: through any sequence of method calls on a new batch (write calls
    that return or throw, commits, resets, result distribution, marking
    ready), the result slots are keyed 0 .. opCount - 1 and the batch has
    exactly one document path per slot. *)
Theorem slots_and_docPaths_stay_aligned (actions : list Action) (maxSize : Z) :
  let b := performAll actions (newBatch maxSize) in
  (forall k, is_Some (resultsMap b !! k) <-> (k < opCount b)%nat) /\
  size (docPaths b) = opCount b.
Proof.
  apply (performAll_invariant well_formed).
  - apply well_formed_perform.
  - apply well_formed_newBatch.
Qed.

(** A batch with room: numbered slots, never SENT by its own methods, no
    more slots than [maxBatchSize], and fewer while it is OPEN. *)
Lemma capacity_perform (maxSize : Z) (a : Action) b :
  well_formed b /\ maxBatchSize b = maxSize /\ state b <> SENT /\
  Z.of_nat (opCount b) <= maxSize /\ (state b = OPEN -> Z.of_nat (opCount b) < maxSize) ->
  let b' := perform a b in
  well_formed b' /\ maxBatchSize b' = maxSize /\ state b' <> SENT /\
  Z.of_nat (opCount b') <= maxSize /\ (state b' = OPEN -> Z.of_nat (opCount b') < maxSize).
Proof.
  intros (Hwf & Hmax & Hsent & Hle & Hopen) b'.
  split; [by apply well_formed_perform | ]. subst b'.
  destruct (perform_cases a b)
    as [(Hdocs & Hmax' & Hres & Hst) | (op & p & _ & -> & Hin & Hst)].
  - unfold opCount in *. rewrite (resolved_from_size _ _ Hres), Hmax'.
    split; [done | ]. split; [ | split; [done | ]].
    + destruct Hst as [-> | [_ ->]]; done.
    + destruct Hst as [-> | [_ ->]]; [done | discriminate].
  - destruct Hwf as [Hn _].
    set (r := recorded (documentRef op) (push_op p b)).
    assert (Hcount : opCount r = S (opCount b)).
    { by apply (recorded_opCount (documentRef op) (push_op p b)). }
    assert (Hstate : state r = if Z.of_nat (opCount r) =? maxBatchSize b
                               then READY_TO_SEND else OPEN) by reflexivity.
    assert (Hm : maxBatchSize r = maxBatchSize b) by reflexivity.
    assert (Hroom : Z.of_nat (opCount b) < maxSize) by auto.
    clearbody r. rewrite Hstate, Hm, Hcount, Hmax.
    destruct (Z.of_nat (S (opCount b)) =? maxSize) eqn:Hfull.
    + split; [done | ]. split; [done | ]. split; [lia | done].
    + apply Z.eqb_neq in Hfull. split; [done | ]. split; [done | ]. split; lia.
Qed.

(** X2: a batch made with a size limit of at least one never holds more
    result slots than the limit, whatever is called on it; it is
    READY_TO_SEND as soon as the limit is reached, so an OPEN batch always
    has room for one more write. *)
Theorem batch_never_exceeds_maxBatchSize (actions : list Action) (maxSize : Z) :
  1 <= maxSize ->
  let b := performAll actions (newBatch maxSize) in
  Z.of_nat (opCount b) <= maxSize /\
  (Z.of_nat (opCount b) = maxSize -> state b = READY_TO_SEND) /\
  (state b = OPEN -> Z.of_nat (opCount b) < maxSize).
Proof.
  intros Hmax b.
  assert (H : well_formed b /\ maxBatchSize b = maxSize /\ state b <> SENT /\
              Z.of_nat (opCount b) <= maxSize /\
              (state b = OPEN -> Z.of_nat (opCount b) < maxSize)).
  { apply (performAll_invariant (fun b =>
      well_formed b /\ maxBatchSize b = maxSize /\ state b <> SENT /\
      Z.of_nat (opCount b) <= maxSize /\
      (state b = OPEN -> Z.of_nat (opCount b) < maxSize))).
    - intros a b0. apply capacity_perform.
    - split; [apply well_formed_newBatch | ]. unfold opCount. simpl.
      rewrite map_size_empty. repeat split; [done | lia | lia]. }
  destruct H as (_ & _ & Hsent & Hle & Hopen).
  split; [done | ]. split; [ | done].
  intros Hfull. destruct (state b); [specialize (Hopen eq_refl); lia | done | done].
Qed.

Lemma batch_never_exceeds_maxBatchSize_witness :
  let actions :=
    [Write (Set_ (sample_set "doc0" "bar")); Write (Set_ (sample_set "doc1" "bar"));
     Write (Set_ (sample_set "doc2" "bar")); Reset;
     Write (Set_ (sample_set "doc3" "bar"))] in
  let b := performAll actions (newBatch 2) in
  1 <= 2 /\ opCount b = 2%nat /\ state b = READY_TO_SEND.
Proof.
  intros actions b.
  destruct (batch_never_exceeds_maxBatchSize actions 2 ltac:(lia)) as (_ & Hfull & _).
  split; [lia | ]. split; [reflexivity | ]. apply Hfull. reflexivity.
Defined.

(** X3: no method moves the state of a batch backwards.  Over any sequence
    of calls the state stays what it was or goes from OPEN to
    READY_TO_SEND; a batch that left OPEN is never OPEN again, not even
    after [_reset]. *)
Theorem state_never_goes_back (actions : list Action) (b : UpdateBuilder) :
  state (performAll actions b) = state b \/
  (state b = OPEN /\ state (performAll actions b) = READY_TO_SEND).
Proof.
  revert b. unfold performAll.
  induction actions as [ | a actions IH]; intros b; simpl; [by left | ].
  assert (Hstep : state (perform a b) = state b \/
                  (state b = OPEN /\ state (perform a b) = READY_TO_SEND)).
  { destruct (perform_cases a b) as [(_ & _ & _ & Hst) | (op & p & _ & -> & _ & Hst)].
    - exact Hst.
    - simpl. destruct (_ =? _); [right | left]; by rewrite ?Hst. }
  destruct (IH (perform a b)) as [Hsame | [Hopen Hready]].
  - rewrite Hsame. exact Hstep.
  - destruct Hstep as [Heq | [Hb Hgo]]; [ | congruence].
    right. split; [congruence | exact Hready].
Qed.

Lemma promiseOf_resolved b slot result :
  resultsMap b !! slot = Some (Some result) -> promiseOf b slot = Some (settle result).
Proof.
  intros H. unfold promiseOf.
  match goal with
  | |- match ?x with _ => _ end = _ =>
      assert (Hx : x = Some (Some result)) by exact H; by rewrite Hx
  end.
Qed.

Lemma promiseOf_settled b slot outcome :
  promiseOf b slot = Some outcome ->
  exists result, resultsMap b !! slot = Some (Some result) /\ settle result = outcome.
Proof.
  unfold promiseOf.
  match goal with
  | |- match ?x with _ => _ end = _ -> _ =>
      destruct x as [[result | ] | ] eqn:Hx; try done
  end.
  intros [= <-]. by exists result.
Qed.

Lemma promiseOf_pending b slot :
  resultsMap b !! slot = Some None -> promiseOf b slot = None.
Proof.
  intros H. unfold promiseOf.
  match goal with
  | |- match ?x with _ => _ end = _ =>
      assert (Hx : x = Some None) by exact H; by rewrite Hx
  end.
Qed.

(** X4: a promise that is settled stays settled the same way.  On a batch
    with numbered slots, no later method call (further writes, commits,
    [_reset], another [processResults] with other results) changes the
    outcome a result promise already has. *)
Theorem settled_promise_is_final (actions : list Action) (b : UpdateBuilder)
    (slot : nat) (outcome : Settled) :
  well_formed b ->
  promiseOf b slot = Some outcome ->
  promiseOf (performAll actions b) slot = Some outcome.
Proof.
  intros Hwf Hp.
  assert (H : well_formed (performAll actions b) /\
              promiseOf (performAll actions b) slot = Some outcome).
  { apply (performAll_invariant (fun b =>
      well_formed b /\ promiseOf b slot = Some outcome)); [ | done].
    clear. intros a b [Hwf Hp]. split; [by apply well_formed_perform | ].
    apply promiseOf_settled in Hp as (result & Hslot & <-).
    apply promiseOf_resolved.
    destruct (perform_cases a b) as [(_ & _ & Hres & _) | (op & p & _ & -> & _ & _)].
    - specialize (Hres slot).
      match type of Hres with
      | match ?x with _ => _ end =>
          assert (Hx : x = Some (Some result)) by exact Hslot; by rewrite Hx in Hres
      end.
    - simpl. rewrite lookup_insert_ne; [exact Hslot | ].
      intros <-. destruct Hwf as [Hn _].
      pose proof (slot_fresh b Hn) as Hfresh.
      assert (Hc : Some (Some result) = None).
      { transitivity (resultsMap b !! opCount b); [symmetry; exact Hslot | exact Hfresh]. }
      discriminate. }
  apply H.
Qed.

Lemma settled_promise_is_final_witness :
  let later :=
    [ProcessResults [mkBatchWriteResult None (errorOf failStatus)]; Reset;
     Write (Set_ (sample_set "doc2" "bar")); BulkCommit sample_idle_firestore] in
  well_formed sample_settled_batch /\
  promiseOf sample_settled_batch 0 = Some (Fulfilled (mkWriteResult (mkTimestamp 2 0))) /\
  promiseOf (performAll later sample_settled_batch) 0
  = Some (Fulfilled (mkWriteResult (mkTimestamp 2 0))).
Proof.
  intros later.
  assert (Hwf : well_formed sample_settled_batch).
  { apply (performAll_invariant well_formed);
      [apply well_formed_perform | apply well_formed_newBatch]. }
  split; [exact Hwf | ]. split; [reflexivity | ].
  exact (settled_promise_is_final later sample_settled_batch 0 _ Hwf eq_refl).
Defined.

(** ** Accepting a write *)

(** X5: a write call with valid arguments (every validator returns, and
    so do the converter of a [create] or [set] and, when a [set] merges
    fields, the mask applied to its data) is accepted exactly when the batch is not
    committed, is OPEN and does not hold the document yet. *)
Theorem write_accepted_iff (op : WriteCall) (b : UpdateBuilder) :
  validates op ->
  (exists slot, outcome_of (append op b) = Ok slot) <->
  _committed b = false /\ (path (documentRef op) ∉ docPaths b) /\ state b = OPEN.
Proof.
  intros Hv. split.
  - intros [slot Hok].
    destruct (_committed b) eqn:Hc.
    { by rewrite (append_committed op b Hv Hc) in Hok. }
    rewrite (append_validated op b Hv Hc) in Hok.
    destruct (decide (path (documentRef op) ∈ docPaths b)) as [Hin | Hin].
    { by rewrite processOperation_duplicate in Hok. }
    destruct (decide (state b = OPEN)) as [Hst | Hst]; [done | ].
    by rewrite processOperation_not_open in Hok.
  - intros (Hc & Hin & Hst). exists (opCount b).
    rewrite (append_validated op b Hv Hc). by rewrite processOperation_open.
Qed.

Lemma write_accepted_iff_witness :
  let op := Update (sample_update "doc2" "bar" None) in
  validates op /\
  _committed sample_batch = false /\ (path (documentRef op) ∉ docPaths sample_batch) /\
  state sample_batch = OPEN /\
  exists slot, outcome_of (append op sample_batch) = Ok slot.
Proof.
  intros op.
  assert (Hv : validates op).
  { split; [reflexivity | ]. split; [reflexivity | ]. split; [reflexivity | ].
    split; [exact I | ]. split; [intros b; reflexivity | reflexivity]. }
  assert (Hin : path (documentRef op) ∉ docPaths sample_batch).
  { vm_compute. set_solver. }
  split; [exact Hv | ]. split; [reflexivity | ]. split; [exact Hin | ].
  split; [reflexivity | ].
  exact (proj2 (write_accepted_iff op sample_batch Hv) (conj eq_refl (conj Hin eq_refl))).
Defined.

(** X6: what an accepted write does.  On a batch with numbered slots, a
    write call that returns hands out the next slot, pending; the batch has
    one slot, one document path (the call's, new to the batch) and one
    operation (the call's producer, at the end) more; every other slot is
    as it was. *)
Theorem accepted_write_effect (op : WriteCall) (b : UpdateBuilder) (slot : nat) :
  well_formed b ->
  outcome_of (append op b) = Ok slot ->
  let b' := batch_of (append op b) in
  slot = opCount b /\ opCount b' = S (opCount b) /\
  (path (documentRef op) ∉ docPaths b) /\
  docPaths b' = {[path (documentRef op)]} ∪ docPaths b /\
  _ops b' = _ops b ++ [producer op] /\
  resultsMap b' !! slot = Some None /\ promiseOf b' slot = None /\
  forall k, k <> slot -> resultsMap b' !! k = resultsMap b !! k.
Proof.
  intros [Hn Hsize] Hok b'.
  pose proof (append_ok_ops op b slot Hok) as Hops. fold b' in Hops.
  subst b'.
  destruct (append_cases op b) as [(e & ops & He) | (p & Hp & Hin & Hst)].
  { by rewrite He in Hok. }
  rewrite Hp in Hok, Hops |- *. injection Hok as <-.
  assert (Hslot : resultsMap (recorded (documentRef op) (push_op p b)) !! opCount b
                  = Some None) by apply lookup_insert_eq.
  split; [done | ]. split; [by apply (recorded_opCount _ (push_op p b)) | ].
  split; [done | ]. split; [done | ]. split; [exact Hops | ]. split; [exact Hslot | ].
  split; [by apply promiseOf_pending | ].
  intros k Hk. simpl. by rewrite lookup_insert_ne.
Qed.

Lemma accepted_write_effect_witness :
  let op := Update (sample_update "doc2" "bar" None) in
  let b' := batch_of (append op sample_batch) in
  well_formed sample_batch /\ outcome_of (append op sample_batch) = Ok 1%nat /\
  opCount b' = 2%nat /\ promiseOf b' 1 = None.
Proof.
  intros op b'.
  assert (Hwf : well_formed sample_batch).
  { apply (well_formed_perform (Write (Set_ (sample_set "doc" "bar")))).
    apply well_formed_newBatch. }
  destruct (accepted_write_effect op sample_batch 1 Hwf eq_refl)
    as (_ & Hcount & _ & _ & _ & _ & Hpending & _).
  split; [exact Hwf | ]. split; [reflexivity | ]. split; [exact Hcount | exact Hpending].
Defined.

(** ** Commits *)

(** X7: a commit changes nothing of the batch but its committed flag,
    whatever the transport answers: [bulkCommit] and [commit_] leave the
    document paths, the result slots (so every result promise), the
    operations and the state as they were; and on the batch they leave
    behind every write call throws without changing it. *)
Theorem commit_only_sets_committed (fuel : nat) (fs : Firestore)
    (commitOptions : option CommitOptions) (b : UpdateBuilder) :
  let b1 := batch_of (bulkCommit fs b) in
  let b2 := batch_of (commit_ (S fuel) fs commitOptions b) in
  b1 = set_committed true b /\ b2 = set_committed true b /\
  forall op,
    (exists e, append op b1 = (b1, [], Throw e)) /\
    (exists e, append op b2 = (b2, [], Throw e)).
Proof.
  intros b1 b2. subst b1 b2. rewrite bulkCommit_batch, commit_batch.
  split; [done | ]. split; [done | ].
  intros op. split; by apply append_committed_throws.
Qed.

(** X8: when [initializeIfNeeded] rejects, both commits reject with its
    error before anything else happens: no producer is invoked and no RPC
    is sent; the batch is marked committed all the same. *)
Theorem commit_stops_at_failed_initialization (fuel : nat) (fs : Firestore)
    (commitOptions : option CommitOptions) (b : UpdateBuilder) (e : Exn) :
  initializeIfNeeded fs = Throw e ->
  bulkCommit fs b = (set_committed true b, [], Throw e) /\
  commit_ (S fuel) fs commitOptions b = (set_committed true b, [], Throw e).
Proof. intros Hinit. by rewrite bulkCommit_unfold, commit_unfold, Hinit. Qed.

Lemma commit_stops_at_failed_initialization_witness :
  let fs := sample_uninitialized_firestore in
  initializeIfNeeded fs = Throw (JsError "Unable to detect a Project Id") /\
  events_of (bulkCommit fs sample_batch) = [] /\
  outcome_of (commit_ 2 fs None sample_batch)
  = Throw (JsError "Unable to detect a Project Id").
Proof.
  intros fs.
  destruct (commit_stops_at_failed_initialization 1 fs None sample_batch _ eq_refl)
    as [Hbulk Hcommit].
  split; [reflexivity | ]. split; [by rewrite Hbulk | by rewrite Hcommit].
Defined.

(** X9: when [commit_] decides for a transaction and [beginTransaction]
    is refused, [commit_] rejects with that error; the only RPC is the
    [beginTransaction], no producer is invoked and no commit is sent. *)
Theorem commit_stops_at_failed_beginTransaction (fuel : nat) (fs : Firestore)
    (commitOptions : option CommitOptions) (b : UpdateBuilder) (e : Exn) :
  initializeIfNeeded fs = Ok tt ->
  explicitTransaction commitOptions = None ->
  _shouldCreateTransaction fs = true ->
  request_beginTransaction fs = Throw e ->
  commit_ (S fuel) fs commitOptions b
  = (set_committed true b, [BeginTransactionRpc (fs_formattedName fs)], Throw e).
Proof.
  intros Hinit Hnone Hshould Hbegin.
  by rewrite commit_unfold, Hinit, Hnone, Hshould, Hbegin.
Qed.

Lemma commit_stops_at_failed_beginTransaction_witness :
  let fs := sample_no_transaction_firestore in
  let e := Rejected (mkGoogleError "unavailable" (Some Status_UNAVAILABLE)) in
  initializeIfNeeded fs = Ok tt /\ explicitTransaction None = None /\
  _shouldCreateTransaction fs = true /\ request_beginTransaction fs = Throw e /\
  commit_ 2 fs None sample_batch
  = (set_committed true sample_batch, [BeginTransactionRpc sample_database], Throw e).
Proof.
  intros fs e. repeat (split; [reflexivity | ]).
  exact (commit_stops_at_failed_beginTransaction 1 fs None sample_batch e
           eq_refl eq_refl eq_refl eq_refl).
Defined.

(** ** Responses that do not match the batch *)

Lemma bulkResults_missing_status (results : list IWriteResult) (status : list IStatus)
    (i : nat) :
  (i <= length status)%nat ->
  (length status < i + length results)%nat ->
  exists msg, bulkResults results status i = Throw (TypeError msg).
Proof.
  revert i. induction results as [ | wr results IH]; intros i Hi Hlen; simpl in *; [lia | ].
  destruct (status !! i) as [st | ] eqn:Hst; [ | eauto].
  apply lookup_lt_Some in Hst.
  destruct (IH (S i)) as [msg ->]; [lia | lia | eauto].
Qed.

(** X10: a batchWrite response with fewer status entries than write
    results makes [bulkCommit] reject with a TypeError although the RPC
    succeeded: no result is returned, not even for the indices that have a
    status. *)
Theorem bulkCommit_rejects_short_status (fs : Firestore) (b : UpdateBuilder)
    (response : BatchWriteResponse) :
  initializeIfNeeded fs = Ok tt ->
  request_batchWrite fs (bulkRequest fs b) = Ok response ->
  (length (bw_status response) < length (default [] (bw_writeResults response)))%nat ->
  exists msg, outcome_of (bulkCommit fs b) = Throw (TypeError msg).
Proof.
  intros Hinit Hreq Hlen. rewrite bulkCommit_unfold, Hinit, Hreq.
  apply bulkResults_missing_status; lia.
Qed.

Lemma bulkCommit_rejects_short_status_witness :
  let fs := sample_bulk_firestore sample_short_status_response in
  initializeIfNeeded fs = Ok tt /\
  request_batchWrite fs (bulkRequest fs sample_batch_of_two)
  = Ok sample_short_status_response /\
  (length (bw_status sample_short_status_response)
   < length (default [] (bw_writeResults sample_short_status_response)))%nat /\
  exists msg, outcome_of (bulkCommit fs sample_batch_of_two) = Throw (TypeError msg).
Proof.
  intros fs.
  assert (Hlen : (length (bw_status sample_short_status_response)
                  < length (default [] (bw_writeResults sample_short_status_response)))%nat)
    by (simpl; lia).
  split; [reflexivity | ]. split; [reflexivity | ]. split; [exact Hlen | ].
  exact (bulkCommit_rejects_short_status fs sample_batch_of_two
           sample_short_status_response eq_refl eq_refl Hlen).
Defined.

(** X11: a response without [writeResults] yields no result at all,
    however many operations the batch has: [bulkCommit] and [commit_]
    return an empty array, and distributing the empty array resolves the
    completion while every result promise stays as it was. *)
Theorem response_without_writeResults (fuel : nat) (fs : Firestore) (b : UpdateBuilder)
    (tx : list Byte.byte) (status : list IStatus) (commitTime : option ITimestamp) :
  initializeIfNeeded fs = Ok tt ->
  request_batchWrite fs (bulkRequest fs b) = Ok (mkBatchWriteResponse None status) ->
  request_commit fs (commitRequest fs (Some tx) b) = Ok (mkCommitResponse None commitTime) ->
  outcome_of (bulkCommit fs b) = Ok [] /\
  outcome_of (commit_ (S fuel) fs (Some (mkCommitOptions (Some tx) None)) b) = Ok [] /\
  let r := (bulkCommit fs ≫= processResults) b in
  outcome_of r = Ok tt /\
  completedDeferred (batch_of r) = resolve (completedDeferred b) tt /\
  resultsMap (batch_of r) = resultsMap b.
Proof.
  intros Hinit Hbulk Hcommit.
  split; [by rewrite bulkCommit_unfold, Hinit, Hbulk | ].
  split.
  - rewrite commit_direct by done. unfold commit_send, outcome_of. simpl.
    unfold explicitTransaction. simpl. by rewrite Hcommit.
  - intros r. subst r. unfold mbind, M_bind, bind.
    rewrite bulkCommit_unfold, Hinit, Hbulk. simpl.
    unfold processResults, mbind, M_bind, bind, modify. simpl. by destruct b.
Qed.

Lemma response_without_writeResults_witness :
  let fs :=
    sample_firestore (Ok (mkBatchWriteResponse None [])) (Ok (mkCommitResponse None None))
      false None 0 in
  initializeIfNeeded fs = Ok tt /\
  outcome_of (bulkCommit fs sample_batch_of_two) = Ok [] /\
  promiseOf (batch_of ((bulkCommit fs ≫= processResults) sample_batch_of_two)) 0 = None.
Proof.
  intros fs.
  destruct (response_without_writeResults 0 fs sample_batch_of_two [Byte.x2a] [] None
              eq_refl eq_refl eq_refl) as (Hbulk & _ & _ & _ & Hslots).
  split; [reflexivity | ]. split; [exact Hbulk | ].
  apply promiseOf_pending. rewrite Hslots. reflexivity.
Defined.

Lemma resolveAll_missing_slot (results : list BatchWriteResult) (index : nat) b (j : nat) :
  (j < length results)%nat ->
  resultsMap b !! (index + j)%nat = None ->
  exists m msg,
    resolveAll results index b = (set_resultsMap m b, [], Throw (TypeError msg)).
Proof.
  revert index b j.
  induction results as [ | result results IH]; intros index b j Hj Hnone; simpl in Hj; [lia | ].
  simpl. unfold mbind at 1, M_bind at 1, bind at 1, get.
  destruct (resultsMap b !! index) as [d | ] eqn:Hd.
  - destruct j as [ | j].
    { replace (index + 0)%nat with index in Hnone by lia.
      assert (Hc : Some d = None).
      { transitivity (resultsMap b !! index); [symmetry; exact Hd | exact Hnone]. }
      discriminate. }
    rewrite modify_then.
    set (b1 := set_resultsMap (<[index := resolve d result]> (resultsMap b)) b).
    destruct (IH (S index) b1 j) as (m & msg & Hrun); [lia | | ].
    { simpl. rewrite lookup_insert_ne by lia.
      replace (S (index + j)) with (index + S j)%nat by lia. exact Hnone. }
    exists m, msg. rewrite Hrun. by destruct b.
  - exists (resultsMap b), "Cannot read properties of undefined". by destruct b.
Qed.

(** X12: [processResults] with more results than the batch has slots
    throws a TypeError at the first result without a slot and never
    resolves the completion deferred: [awaitBulkCommit] stays pending. *)
Theorem processResults_too_many_results (results : list BatchWriteResult)
    (b : UpdateBuilder) :
  slots_numbered b ->
  (opCount b < length results)%nat ->
  let r := processResults results b in
  (exists msg, outcome_of r = Throw (TypeError msg)) /\
  completedDeferred (batch_of r) = completedDeferred b.
Proof.
  intros Hn Hlen r. subst r.
  destruct (resolveAll_missing_slot results 0 b (opCount b) Hlen) as (m & msg & Hrun).
  { by apply slot_fresh. }
  unfold processResults, mbind, M_bind, bind, modify. rewrite Hrun. simpl. eauto.
Qed.

Lemma processResults_too_many_results_witness :
  let results :=
    [mkBatchWriteResult (Some (mkTimestamp 2 0)) (errorOf successStatus);
     mkBatchWriteResult (Some (mkTimestamp 3 0)) (errorOf successStatus)] in
  let r := processResults results sample_batch in
  slots_numbered sample_batch /\ (opCount sample_batch < length results)%nat /\
  completedDeferred (batch_of r) = None /\
  promiseOf (batch_of r) 0 = Some (Fulfilled (mkWriteResult (mkTimestamp 2 0))).
Proof.
  intros results r.
  assert (Hwf : well_formed sample_batch).
  { apply (well_formed_perform (Write (Set_ (sample_set "doc" "bar")))).
    apply well_formed_newBatch. }
  assert (Hlen : (opCount sample_batch < length results)%nat).
  { change (1 < 2)%nat. lia. }
  destruct (processResults_too_many_results results sample_batch (proj1 Hwf) Hlen)
    as [_ Hpending].
  split; [exact (proj1 Hwf) | ]. split; [exact Hlen | ].
  split; [exact Hpending | reflexivity].
Defined.

(** ** The validators *)

Lemma firstConflict_found (fields : list FieldPath) (field : FieldPath) :
  firstConflict fields = Some field -> field ∈ fields /\ conflicting fields.
Proof.
  induction fields as [ | prev [ | next rest] IH]; simpl; try done.
  destruct (isPrefixOf prev next) eqn:Hprefix.
  - intros [= <-]. split; [apply elem_of_cons; by left | ].
    exists [], prev, [], next, rest. by auto.
  - intros Hrest. destruct (IH Hrest) as [Hin (l1 & p & l2 & q & l3 & Heq & Hpq)].
    split; [apply elem_of_cons; by right | ].
    exists (prev :: l1), p, l2, q, l3. by rewrite Heq.
Qed.

(** X14 (validateNoConflictingFields): the update map passes exactly when no
    two of its field paths are a prefix of one another (equal paths
    included), wherever they stand in the map; when it does not pass, the
    error names one of the map's own fields and the batch is unchanged. *)
Theorem validateNoConflictingFields_characterised arg (data : list (FieldPath * string)) b :
  (validateNoConflictingFields arg data b = (b, [], Ok tt) <->
     ~ conflicting (map fst data)) /\
  (conflicting (map fst data) <->
     exists field,
       field ∈ map fst data /\
       validateNoConflictingFields arg data b = (b, [], Throw (FieldConflict arg field))).
Proof.
  assert (Hperm : merge_sort path_le (map fst data) ≡ₚ map fst data)
    by apply merge_sort_Permutation.
  assert (Hfound : forall field,
             firstConflict (merge_sort path_le (map fst data)) = Some field ->
             field ∈ map fst data /\ conflicting (map fst data)).
  { intros field Hsome. apply firstConflict_found in Hsome as [Hin Hc]. split.
    - by rewrite <- Hperm.
    - by apply (conflicting_Permutation _ _ Hperm). }
  split; split.
  - intros Hok Hc.
    destruct (validateNoConflictingFields_throws arg data b Hc) as [field Hthrow].
    by rewrite Hthrow in Hok.
  - intros Hnone. unfold validateNoConflictingFields.
    destruct (firstConflict _) as [field | ] eqn:Hfirst; [ | done].
    by destruct (Hfound _ eq_refl) as [_ Hc].
  - intros Hc.
    destruct (validateNoConflictingFields_throws arg data b Hc) as [field Hthrow].
    exists field. split; [ | done].
    revert Hthrow. unfold validateNoConflictingFields.
    destruct (firstConflict _) as [field' | ] eqn:Hfirst; [ | done].
    intros [= <-]. by destruct (Hfound _ eq_refl).
  - intros (field & _ & Hthrow).
    revert Hthrow. unfold validateNoConflictingFields.
    destruct (firstConflict _) as [field' | ] eqn:Hfirst; [ | done].
    intros _. by destruct (Hfound _ eq_refl).
Qed.

Lemma validatePrecondition_cases arg value allowExists b :
  (acceptable_precondition allowExists value /\
   validatePrecondition arg value allowExists b = (b, [], Ok tt)) \/
  (~ acceptable_precondition allowExists value /\
   exists e, validatePrecondition arg value allowExists b = (b, [], Throw e)).
Proof.
  destruct value as [ | exists_ lastUpdateTime].
  - right. split; [ by intros (? & ? & ? & _) | by eexists ].
  - destruct exists_ as [ | e | ], lastUpdateTime as [ | l | ], allowExists;
      first [ left; split;
              [ eexists _, _; repeat split; by auto | reflexivity ]
            | right; split;
              [ intros (e' & l' & [= <- <-] & He & Hl & Hone & Hallow);
                first [ done | by destruct Hone | by discriminate Hallow ]
              | by eexists ] ].
Qed.

(** X15 (validatePrecondition): a value passes exactly when it is an object
    that names at most one of the two conditions, with [exists] a boolean
    and named only where it is allowed, and [lastUpdateTime] a Timestamp;
    the object with neither passes.  Any other value is rejected with the
    batch unchanged. *)
Theorem validatePrecondition_characterised arg value allowExists b :
  (validatePrecondition arg value allowExists b = (b, [], Ok tt) <->
     acceptable_precondition allowExists value) /\
  (~ acceptable_precondition allowExists value ->
     exists e, validatePrecondition arg value allowExists b = (b, [], Throw e)).
Proof.
  destruct (validatePrecondition_cases arg value allowExists b)
    as [[Hacc Hok] | [Hrej [e Hthrow]]].
  - split; [ by split | by intros Hno ].
  - split; [ | by eauto ].
    split; [ by rewrite Hthrow | by intros Hacc ].
Qed.

(** X16 (update, validateUpdatePrecondition): an update whose trailing
    precondition names [exists] is refused, whatever the value, so is
    [{exists: true}], the precondition an update gets by default; the batch
    is unchanged. *)
Theorem update_rejects_exists_precondition (c : UpdateCall) (b : UpdateBuilder)
    exists_ lastUpdateTime :
  up_validateMinNumberOfArguments c = None ->
  up_validateDocumentReference c = None ->
  up_validateFields c = None ->
  _committed b = false ->
  up_precondition c = Some (PreconditionObject exists_ lastUpdateTime) ->
  exists_ <> Undefined ->
  update c b =
    (b, [], Throw (UpdateUsage (InvalidArgument (up_preconditionArg c) "precondition"
                                  "'exists' is not an allowed precondition."))).
Proof.
  intros Hmin Hdoc Hfields Hopen Hpre Hexists. unfold update.
  rewrite Hmin, Hdoc. simpl.
  rewrite (returns_then _ _ b tt); [ | done].
  rewrite (returns_then _ _ b tt); [ | done].
  rewrite (returns_then _ _ b tt); [ | by apply verifyNotCommitted_open].
  apply throws_then.
  unfold rethrow. rewrite Hfields, Hpre. simpl.
  rewrite (returns_then _ _ b tt); [ | done].
  unfold validateUpdatePrecondition. simpl.
  by destruct exists_.
Qed.

Lemma update_rejects_exists_precondition_witness :
  let c := sample_update "doc" "bar" (Some (PreconditionObject (Present true) Undefined)) in
  update c (newBatch MAX_BATCH_SIZE) =
    (newBatch MAX_BATCH_SIZE, [],
     Throw (UpdateUsage (InvalidArgument "preconditionOrValues" "precondition"
                           "'exists' is not an allowed precondition."))).
Proof.
  exact (update_rejects_exists_precondition
           (sample_update "doc" "bar" (Some (PreconditionObject (Present true) Undefined)))
           (newBatch MAX_BATCH_SIZE) (Present true) Undefined
           eq_refl eq_refl eq_refl eq_refl eq_refl ltac:(discriminate)).
Defined.

(** A loop of validators that leave the batch alone. *)
Lemma forEach_passes {A} (f : A -> M unit) (l : list A) b :
  Forall (fun x => f x b = (b, [], Ok tt)) l -> forEach f l b = (b, [], Ok tt).
Proof.
  induction 1 as [ | x rest Hx _ IH]; [done | ].
  simpl. by rewrite (returns_then _ _ b tt).
Qed.

(** The loop stops at the first element that throws. *)
Lemma forEach_throws {A} (f : A -> M unit) (before : list A) x after b e :
  Forall (fun x => f x b = (b, [], Ok tt)) before ->
  f x b = (b, [], Throw e) ->
  forEach f (before ++ x :: after) b = (b, [], Throw e).
Proof.
  induction 1 as [ | y rest Hy _ IH]; intros Hx; simpl.
  - by apply throws_then.
  - rewrite (returns_then _ _ b tt); auto.
Qed.

(** A loop of validators returns for all elements, or there is a first
    element at which it throws. *)
Lemma forEach_cases {A} (f : A -> M unit) (l : list A) b :
  (forall x, f x b = (b, [], Ok tt) \/ exists e, f x b = (b, [], Throw e)) ->
  Forall (fun x => f x b = (b, [], Ok tt)) l \/
  exists before x after e,
    l = before ++ x :: after /\
    Forall (fun x => f x b = (b, [], Ok tt)) before /\
    f x b = (b, [], Throw e).
Proof.
  intros Hf. induction l as [ | x rest IH]; [by left | ].
  destruct (Hf x) as [Hx | [e Hx]].
  - destruct IH as [Hall | (before & y & after & e & -> & Hbefore & Hy)].
    + left. by constructor.
    + right. exists (x :: before), y, after, e. split; [done | ]. split; [ | done].
      by constructor.
  - right. exists [], x, rest, e. by repeat split.
Qed.

Lemma validateMergeFields_cases arg (fields : list Check) b :
  (Forall (fun f => f = None) fields /\
   validateMergeFields arg fields b = (b, [], Ok tt)) \/
  (~ Forall (fun f => f = None) fields /\
   exists e, validateMergeFields arg fields b = (b, [], Throw e)).
Proof.
  unfold validateMergeFields.
  induction fields as [ | [msg | ] rest IH].
  - left. by split.
  - right. split; [ intros H; by inversion H | eexists; reflexivity ].
  - destruct IH as [[Hall Hok] | [Hno [e Hthrow]]].
    + left. split; [by constructor | ].
      simpl. by rewrite (returns_then _ _ b tt).
    + right. split; [ intros H; by inversion H | ].
      exists e. simpl. by rewrite (returns_then _ _ b tt).
Qed.

(** X17 (validateSetOptions): the options of [set] pass exactly when they
    are omitted (where that is allowed), or an object with no [mergeFields]
    key whose [merge], if the key is there, is a boolean, or an object with
    no [merge] key whose [mergeFields] is an array of valid field paths.  An
    object with both keys is refused even when [merge] is [false]; so a
    [set] whose options pass never merges by leaves and by paths at once.
    A refusal leaves the batch unchanged. *)
Theorem validateSetOptions_characterised arg (value : option SetOptionsArg) optional b :
  (validateSetOptions arg value optional b = (b, [], Ok tt) <->
     acceptable_setOptions value optional) /\
  (~ acceptable_setOptions value optional ->
     exists e, validateSetOptions arg value optional b = (b, [], Throw e)) /\
  (validateSetOptions arg value optional b = (b, [], Ok tt) ->
     mergeLeavesOf value && mergePathsOf value = false).
Proof.
  assert (Hdec : (acceptable_setOptions value optional /\
                  validateSetOptions arg value optional b = (b, [], Ok tt)) \/
                 (~ acceptable_setOptions value optional /\
                  exists e, validateSetOptions arg value optional b = (b, [], Throw e))).
  { unfold acceptable_setOptions.
    destruct value as [[ | merge mergeFields] | ].
    - right. split; [ | eexists; reflexivity ].
      by intros [[? _] | [(? & ? & _) | (? & ? & _)]].
    - destruct merge as [ | m | ], mergeFields as [ | fields | ].
      + left. split; [ | reflexivity ]. right. left. by exists NoKey.
      + destruct (validateMergeFields_cases arg fields b) as [[Hall Hok] | [Hno [e Hthrow]]].
        * left. split; [ right; right; by exists fields | ].
          unfold validateSetOptions. simpl.
          rewrite (returns_then _ _ b tt); [ | done].
          by rewrite (returns_then _ _ b tt).
        * right. split.
          -- intros [[? _] | [(? & ? & _) | (fields' & [= <-] & Hall)]]; done.
          -- exists e. unfold validateSetOptions. simpl.
             rewrite (returns_then _ _ b tt); [ | done].
             by apply throws_then.
      + right. split; [ | eexists; reflexivity ].
        by intros [[? _] | [(? & ? & _) | (? & ? & _)]].
      + left. split; [ | reflexivity ]. right. left. by exists (KeyOf m).
      + right. split.
        * by intros [[? _] | [(? & ? & _) | (? & ? & _)]].
        * destruct (validateMergeFields_cases arg fields b) as [[_ Hok] | [_ [e Hthrow]]].
          -- eexists. unfold validateSetOptions. simpl.
             rewrite (returns_then _ _ b tt); [ | done].
             by rewrite (returns_then _ _ b tt).
          -- exists e. unfold validateSetOptions. simpl.
             rewrite (returns_then _ _ b tt); [ | done].
             by apply throws_then.
      + right. split; [ | eexists; reflexivity ].
        by intros [[? _] | [(? & ? & _) | (? & ? & _)]].
      + right. split; [ | eexists; reflexivity ].
        by intros [[? _] | [(? & [= <-] & ?) | (? & ? & _)]].
      + right. split; [ | eexists; reflexivity ].
        by intros [[? _] | [(? & [= <-] & ?) | (? & ? & _)]].
      + right. split; [ | eexists; reflexivity ].
        by intros [[? _] | [(? & ? & _) | (? & ? & _)]].
    - destruct optional.
      + left. split; [ by left | reflexivity ].
      + right. split; [ | eexists; reflexivity ].
        by intros [[_ ?] | [(? & ? & _) | (? & ? & _)]]. }
  destruct Hdec as [[Hacc Hok] | [Hrej [e Hthrow]]].
  - split; [ by split | ]. split; [ by intros Hno | intros _ ].
    destruct Hacc as [[-> _] | [(merge & -> & _) | (fields & -> & _)]]; try done.
    simpl. by destruct merge as [ | [ | ] | ].
  - split; [ | split; [ by eauto | by rewrite Hthrow ] ].
    split; [ by rewrite Hthrow | by intros Hacc ].
Qed.

Section UserInputProperties.

Context {Value : Type}.
Variable validateUserInput :
  string -> Value -> string -> AllowDeletes -> bool -> option FieldPath -> Check.
Variable customObjectMessage : string -> string.

Lemma check_cases (c : Check) b :
  check c b = (b, [], Ok tt) \/ exists e, check c b = (b, [], Throw e).
Proof. destruct c; [right; by eexists | by left]. Qed.

Lemma check_passes (c : Check) b : check c b = (b, [], Ok tt) <-> c = None.
Proof. by destruct c. Qed.

(** X18 (validateUpdateMap, validateFieldValue): the data of an update
    passes exactly when it is a plain object with at least one property,
    each of them valid as a Firestore value with deletes allowed at the
    root.  The empty object is refused with 'At least one field must be
    updated.', and an invalid property is reported before the missing
    fields are: the error is that of the first invalid property. *)
Theorem validateUpdateMap_characterised arg (obj : PlainObject Value) b :
  let valid (p : string * Value) :=
    validateUserInput arg p.2 "Firestore value" DeletesRoot true (Some [p.1]) = None in
  (validateUpdateMap validateUserInput customObjectMessage arg obj b = (b, [], Ok tt) <->
     exists props, obj = Some props /\ props <> [] /\ Forall valid props) /\
  validateUpdateMap validateUserInput customObjectMessage arg (Some []) b
  = (b, [], Throw (JsError "At least one field must be updated.")) /\
  (forall before prop value after msg,
     obj = Some (before ++ (prop, value) :: after) ->
     Forall valid before ->
     validateUserInput arg value "Firestore value" DeletesRoot true (Some [prop]) = Some msg ->
     validateUpdateMap validateUserInput customObjectMessage arg obj b
     = (b, [], Throw (JsError msg))).
Proof.
  intros valid.
  set (f := fun p : string * Value =>
              let '(prop, value) := p in
              validateFieldValue validateUserInput arg value (Some [prop])).
  assert (Hf : forall p, f p b = (b, [], Ok tt) <-> valid p).
  { intros [prop value]. apply check_passes. }
  assert (Hall : forall props,
             Forall (fun p => f p b = (b, [], Ok tt)) props <-> Forall valid props).
  { intros props. apply Forall_iff. exact Hf. }
  split; [ | split ].
  - split.
    + destruct obj as [props | ]; [ | done].
      intros Hok. exists props. split; [done | ].
      destruct (forEach_cases f props b) as [Hpass | (before & p & after & e & -> & _ & Hp)].
      { intros [prop value]. apply check_cases. }
      * destruct props as [ | p rest].
        -- by vm_compute in Hok.
        -- split; [done | by apply Hall].
      * exfalso. revert Hok. unfold validateUpdateMap. fold f.
        destruct (forEach_cases f before b) as [Hbefore | (l1 & q & l2 & e' & -> & Hl1 & Hq)].
        { intros [prop value]. apply check_cases. }
        -- rewrite (throws_then _ _ b e); [done | ].
           by apply forEach_throws.
        -- rewrite <- app_assoc. simpl.
           rewrite (throws_then _ _ b e'); [done | ].
           by apply forEach_throws.
    + intros (props & -> & Hne & Hvalid).
      unfold validateUpdateMap. fold f.
      rewrite (returns_then _ _ b tt); [ | by apply forEach_passes, Hall].
      by destruct props.
  - reflexivity.
  - intros before prop value after msg -> Hbefore Hmsg.
    unfold validateUpdateMap. fold f.
    apply throws_then, forEach_throws; [by apply Hall | ].
    unfold f, validateFieldValue. by rewrite Hmsg.
Qed.

(** X19 (validateDocumentData): the data of a [create] or [set] passes
    exactly when it is a plain object each of whose properties is valid as
    part of a Firestore document, with deletes allowed everywhere or
    nowhere; the empty object passes.  The error is that of the first
    invalid property. *)
Theorem validateDocumentData_characterised arg (obj : PlainObject Value) (allowDeletes : bool) b :
  let valid (p : string * Value) :=
    validateUserInput arg p.2 "Firestore document"
      (if allowDeletes then DeletesAll else DeletesNone) true (Some [p.1]) = None in
  (validateDocumentData validateUserInput customObjectMessage arg obj allowDeletes b
   = (b, [], Ok tt) <->
     exists props, obj = Some props /\ Forall valid props) /\
  validateDocumentData validateUserInput customObjectMessage arg (Some []) allowDeletes b
  = (b, [], Ok tt) /\
  (forall before prop value after msg,
     obj = Some (before ++ (prop, value) :: after) ->
     Forall valid before ->
     validateUserInput arg value "Firestore document"
       (if allowDeletes then DeletesAll else DeletesNone) true (Some [prop]) = Some msg ->
     validateDocumentData validateUserInput customObjectMessage arg obj allowDeletes b
     = (b, [], Throw (JsError msg))).
Proof.
  intros valid.
  set (f := fun p : string * Value =>
              let '(prop, value) := p in
              check (validateUserInput arg value "Firestore document"
                       (if allowDeletes then DeletesAll else DeletesNone) true
                       (Some [prop]))).
  assert (Hf : forall p, f p b = (b, [], Ok tt) <-> valid p).
  { intros [prop value]. apply check_passes. }
  assert (Hall : forall props,
             Forall (fun p => f p b = (b, [], Ok tt)) props <-> Forall valid props).
  { intros props. apply Forall_iff. exact Hf. }
  split; [ | split ].
  - split.
    + destruct obj as [props | ]; [ | done].
      intros Hok. exists props. split; [done | ].
      destruct (forEach_cases f props b) as [Hpass | (before & p & after & e & -> & Hb & Hp)].
      { intros [prop value]. apply check_cases. }
      * by apply Hall.
      * exfalso. revert Hok. unfold validateDocumentData. fold f.
        by rewrite (forEach_throws f before p after b e).
    + intros (props & -> & Hvalid).
      unfold validateDocumentData. fold f. by apply forEach_passes, Hall.
  - reflexivity.
  - intros before prop value after msg -> Hbefore Hmsg.
    unfold validateDocumentData. fold f.
    apply forEach_throws; [by apply Hall | ].
    unfold f. by rewrite Hmsg.
Qed.

End UserInputProperties.

(** ** The alternating form of update *)

Section UpdateArgumentsProperties.

Context {Value : Type}.
Variable validateUserInput :
  string -> Value -> string -> AllowDeletes -> bool -> option FieldPath -> Check.
Variable validateFieldPath : string -> Value -> Check.
Variable validateMinNumberOfArguments : string -> nat -> nat -> Check.
Variable fromArgument : nat -> Value -> nat * FieldPath.
Variable asPrecondition : Value -> PreconditionArg.

Local Abbreviation loop :=
  (update_loop validateUserInput validateFieldPath validateMinNumberOfArguments
     fromArgument asPrecondition).
Local Abbreviation varargs :=
  (update_varargs validateUserInput validateFieldPath validateMinNumberOfArguments
     fromArgument asPrecondition).
Local Abbreviation valid := (valid_pairs validateUserInput validateFieldPath fromArgument).

(** The loop over valid pairs sets each of them and comes to what follows
    the pairs. *)
Lemma update_loop_pairs argc i pairs tail updateMap precondition b :
  (forall funcName minSize,
      (minSize <= argc)%nat -> validateMinNumberOfArguments funcName argc minSize = None) ->
  (i + 2 * length pairs <= argc)%nat ->
  valid i pairs ->
  loop argc i (alternating pairs tail) updateMap precondition b
  = loop argc (i + 2 * length pairs)%nat tail (setAll fromArgument i pairs updateMap)
      precondition b.
Proof.
  intros Henough. revert i updateMap.
  induction pairs as [ | [field value] pairs IH]; intros i updateMap Hargc Hvalid.
  - simpl. by rewrite Nat.add_0_r.
  - destruct (Hvalid 0%nat (field, value) eq_refl) as [Hfield Hvalue].
    rewrite Nat.add_0_r in Hfield, Hvalue. simpl in Hfield, Hvalue.
    simpl in Hargc.
    change (alternating ((field, value) :: pairs) tail)
      with (field :: value :: alternating pairs tail).
    simpl update_loop.
    rewrite Hfield, (Henough "update" (i + 1)%nat) by lia.
    rewrite (returns_then _ _ b tt); [ | done].
    rewrite (returns_then _ _ b tt); [ | done].
    rewrite (returns_then _ _ b tt);
      [ | unfold validateFieldValue; by rewrite Hvalue ].
    rewrite IH.
    + simpl. f_equal. lia.
    + lia.
    + intros k p Hp. specialize (Hvalid (S k) p Hp).
      by replace (i + 2 + 2 * k)%nat with (i + 2 * S k)%nat by lia.
Qed.

(** Field arguments that give distinct objects give one entry each, in
    the order of the arguments. *)
Lemma setAll_distinct i (pairs : list (Value * Value)) updateMap :
  NoDup (map (fun entry => entry.1.1) updateMap
         ++ imap (fun k p => (fromArgument (i + 2 * k) p.1).1) pairs) ->
  setAll fromArgument i pairs updateMap
  = updateMap ++ imap (fun k p => (fromArgument (i + 2 * k) p.1, p.2)) pairs.
Proof.
  revert i updateMap.
  induction pairs as [ | p pairs IH]; intros i updateMap Hnodup.
  - simpl. by rewrite app_nil_r.
  - simpl in *. rewrite Nat.add_0_r in *.
    assert (Hnew : (fromArgument i p.1).1 ∉ map (fun entry => entry.1.1) updateMap).
    { apply NoDup_app in Hnodup as (_ & Hdisjoint & _).
      intros Hin. apply (Hdisjoint _ Hin). apply elem_of_cons. by left. }
    unfold Map_set at 1. rewrite decide_False by done.
    rewrite IH.
    + rewrite <- app_assoc. simpl. do 2 f_equal.
      apply imap_ext. intros k q _. simpl.
      by replace (i + 2 + (k + (k + 0)))%nat with (i + S (k + S (k + 0)))%nat by lia.
    + rewrite map_app. simpl. rewrite <- app_assoc. simpl.
      erewrite imap_ext; [exact Hnodup | ].
      intros k q _. simpl.
      by replace (i + 2 + (k + (k + 0)))%nat with (i + S (k + S (k + 0)))%nat by lia.
Qed.

(** X20 (update, alternating form): when every field and value passes its
    validator, (1) an even number of arguments after [documentRef] leaves
    the map of the pairs and the precondition [{exists: true}], and the
    recount of the arguments inside the loop never fails; (2) an unpaired
    last argument is read as the precondition: if it is acceptable for an
    update it replaces the default, (3) if not, the call fails with the
    usage error and the batch unchanged; so does a lone field name without
    a value; (4) field arguments that give distinct [FieldPath] objects
    give one entry each, in argument order. *)
Theorem update_varargs_characterised (pairs : list (Value * Value)) b :
  (forall funcName argc minSize,
      (minSize <= argc)%nat -> validateMinNumberOfArguments funcName argc minSize = None) ->
  valid 1%nat pairs ->
  varargs (alternating pairs []) b
  = (b, [], Ok (setAll fromArgument 1 pairs [], mkPrecondition (Some true) None)) /\
  (forall last,
      acceptable_precondition false (asPrecondition last) ->
      varargs (alternating pairs [last]) b
      = (b, [], Ok (setAll fromArgument 1 pairs [],
                    newPrecondition (Some (asPrecondition last))))) /\
  (forall last,
      ~ acceptable_precondition false (asPrecondition last) ->
      exists e, varargs (alternating pairs [last]) b = (b, [], Throw (UpdateUsage e))) /\
  (NoDup (imap (fun k p => (fromArgument (1 + 2 * k) p.1).1) pairs) ->
   setAll fromArgument 1 pairs []
   = imap (fun k p => (fromArgument (1 + 2 * k) p.1, p.2)) pairs).
Proof.
  intros Henough Hvalid.
  assert (Hlen : forall tail : list Value,
             length (alternating pairs tail) = (2 * length pairs + length tail)%nat).
  { intros tail. unfold alternating. rewrite length_app. f_equal.
    clear Hvalid. induction pairs as [ | p rest IH]; [done | ].
    simpl. rewrite IH. lia. }
  split; [ | split; [ | split ] ].
  - unfold update_varargs, rethrow.
    rewrite update_loop_pairs; [ | by intros; apply Henough | rewrite Hlen; lia | done ].
    reflexivity.
  - intros last Hacc. unfold update_varargs, rethrow.
    rewrite update_loop_pairs; [ | by intros; apply Henough | rewrite Hlen; lia | done ].
    simpl. unfold validateUpdatePrecondition. simpl.
    destruct (validatePrecondition_cases (pretty (1 + 2 * length pairs)%nat)
                (asPrecondition last) false b) as [[_ Hok] | [Hno _]]; [ | done].
    by rewrite (returns_then _ _ b tt).
  - intros last Hrej. unfold update_varargs, rethrow.
    rewrite update_loop_pairs; [ | by intros; apply Henough | rewrite Hlen; lia | done ].
    simpl. unfold validateUpdatePrecondition. simpl.
    destruct (validatePrecondition_cases (pretty (1 + 2 * length pairs)%nat)
                (asPrecondition last) false b) as [[Hacc _] | [_ [e Hthrow]]]; [done | ].
    exists e. by rewrite (throws_then _ _ b e).
  - intros Hnodup. by rewrite setAll_distinct.
Qed.

End UpdateArgumentsProperties.

Lemma update_varargs_characterised_witness :
  update_varargs sample_validateUserInput sample_validateFieldPath
    sample_validateMinNumberOfArguments sample_fromArgument sample_asPrecondition
    ["foo"; "bar"] (newBatch MAX_BATCH_SIZE)
  = (newBatch MAX_BATCH_SIZE, [],
     Ok ([((1%nat, ["foo"]), "bar")], mkPrecondition (Some true) None)).
Proof.
  refine (proj1 (update_varargs_characterised sample_validateUserInput
                   sample_validateFieldPath sample_validateMinNumberOfArguments
                   sample_fromArgument sample_asPrecondition
                   [("foo", "bar")] (newBatch MAX_BATCH_SIZE) _ _)).
  - intros funcName argc minSize Hle. unfold sample_validateMinNumberOfArguments.
    destruct (Nat.ltb_spec argc minSize); [lia | reflexivity].
  - intros [ | k] p Hp; simpl in Hp; [ | done].
    injection Hp as <-. split; reflexivity.
Defined.

(** ** What each method sends as the precondition *)

(** X21 (create, set, update, delete with bulkCommit's request): a write
    that is accepted adds one write at the end of the request the batch
    would send; a [create] always asks for the document not to exist, a
    [set] adds no precondition, an [update] without a precondition argument
    asks for the document to exist, and a [delete] sends the precondition
    it was given, or none. *)
Theorem accepted_write_precondition (op : WriteCall) b slot fs :
  outcome_of (append op b) = Ok slot ->
  bw_writes (bulkRequest fs (batch_of (append op b)))
  = bw_writes (bulkRequest fs b) ++ [wire (producer op)] /\
  match op with
  | Create c =>
      w_currentDocument (wire (producer op)) = Some (mkIPrecondition (Some false) None)
  | Set_ c =>
      w_currentDocument (wire (producer op)) = w_currentDocument (se_document c)
  | Update c =>
      up_precondition c = None ->
      w_currentDocument (wire (producer op)) = Some (mkIPrecondition (Some true) None)
  | Delete c =>
      w_currentDocument (wire (producer op))
      = Precondition_toProto (newPrecondition (dl_precondition c))
  end.
Proof.
  intros Hok. split.
  - unfold bulkRequest. simpl. rewrite (append_ok_ops op b slot Hok).
    by rewrite map_app.
  - destruct op as [c | c | c | c]; simpl.
    + reflexivity.
    + unfold wire, attach, set_op. simpl.
      destruct (_ && _); simpl; by destruct (se_transform c).
    + intros Hnone. unfold wire, attach, update_op, update_precondition.
      by rewrite Hnone.
    + unfold wire, attach, delete_op. simpl.
      by destruct (Precondition_toProto _).
Qed.

Lemma accepted_write_precondition_witness :
  let op := Create (sample_create "doc" "bar") in
  let fs := sample_bulk_firestore sample_mixed_response in
  map w_currentDocument (bw_writes (bulkRequest fs (batch_of (append op sample_batch_of_two))))
  = [None; None; Some (mkIPrecondition (Some false) None)].
Proof.
  intros op fs.
  destruct (accepted_write_precondition op sample_batch_of_two 2%nat fs eq_refl)
    as [Hwrites Hcreate].
  rewrite Hwrites, map_app.
  change (map w_currentDocument [wire (producer op)])
    with [w_currentDocument (wire (producer op))].
  rewrite Hcreate. reflexivity.
Defined.

(** ** A set that merges fields its data does not have *)

(** X22 (set): a [set] that merges fields (mergeFields) and whose data has
    no value for one of them is refused with the error of
    [documentMask.applyTo] before its producer is pushed: the batch is
    unchanged, and this is the error also on a batch that already holds
    the document or is no longer OPEN.  On a committed batch the
    already-committed error comes first.  A [set] without mergeFields does
    not apply a mask to its data. *)
Theorem set_missing_merge_field (c : SetCall) (b : UpdateBuilder) (msg : string) :
  se_validateSetOptions c = None ->
  se_validateDocumentReference c = None ->
  se_toFirestore c = None ->
  se_validateDocumentData c = None ->
  se_applyTo c = Some msg ->
  (_committed b = true -> set c b = (b, [], Throw (JsError committed_message))) /\
  (_committed b = false ->
     match se_mergePaths c with
     | Some mergeFields => set c b = (b, [], Throw (JsError msg))
     | None =>
         set c b
         = ((check (se_transform_validate c);;
             modify (push_op (set_op c));;
             processOperation (se_documentRef c)) b)
     end).
Proof.
  intros Hoptions Href Hconvert Hdata Hmask. unfold set.
  rewrite Hoptions, Href, Hconvert, Hdata, Hmask.
  do 4 (rewrite (returns_then _ _ b tt) by done).
  split; intros Hcommitted.
  - by apply throws_then, verifyNotCommitted_committed.
  - rewrite (returns_then _ _ b tt) by (by apply verifyNotCommitted_open).
    destruct (se_mergePaths c) as [mergeFields | ]; simpl.
    + by apply throws_then.
    + by rewrite (returns_then _ _ b tt).
Qed.

Lemma set_missing_merge_field_witness :
  let c := sample_set_missing_merge_field "doc" in
  path (se_documentRef c) ∈ docPaths sample_batch /\
  set c sample_batch
  = (sample_batch, [], Throw (JsError "Input data is missing for field 'b'.")).
Proof.
  intros c. split; [vm_compute; set_solver | ].
  exact (proj2 (set_missing_merge_field c sample_batch
                  "Input data is missing for field 'b'."
                  eq_refl eq_refl eq_refl eq_refl eq_refl) eq_refl).
Defined.
